(** * django_cassandra_fake: the in-memory store of [connection.py]

    A shallow embedding of the in-memory Cassandra double
    ([src/django_cassandra_fake/connection.py]): the [Table] row store, the
    [Keyspace] registry, the statement executors [ModelQuerySet._execute] and
    [DMLQuery._execute], and the read-path value normalizers.

    Python objects are mutable and every method may raise: methods of [Table]
    are functions from the table before the call to an outcome (a returned
    value or a raised exception) paired with the table after the call, so
    that what a raising call leaves behind is visible. *)

From Stdlib Require Import ZArith Ascii String Lia.
From Stdlib Require Import Floats.PrimFloat Numbers.Cyclic.Int63.Uint63.
From stdpp Require Import base option list gmap strings fin_maps fin_sets sorting.

Open Scope Z_scope.
Open Scope string_scope.
Open Scope list_scope.

(* ===================================================================== *)
(** ** Python values held in rows *)
(* ===================================================================== *)

(** Hashable scalars: what may sit inside a collection column. *)
Inductive atom : Type :=
| AInt (n : Z)
| AStr (s : string).

#[global] Instance atom_eq_dec : EqDecision atom.
Proof. solve_decision. Defined.

#[global] Instance atom_countable : Countable atom.
Proof.
  refine (inj_countable'
            (λ a, match a with AInt n => inl n | AStr s => inr s end)
            (λ x, match x with inl n => AInt n | inr s => AStr s end) _).
  by intros [].
Defined.

(** A stored cell: [None], a scalar, or one of the three collection kinds.
    Leibniz equality on this type is Python's [==] (lists compare
    element-wise, sets and dicts extensionally; [[] != set()]). *)
Inductive value : Type :=
| VNone
| VAtom (a : atom)
| VList (l : list atom)
| VSet (s : gset atom)
| VMap (m : gmap atom atom).

#[global] Instance value_eq_dec : EqDecision value.
Proof. solve_decision. Defined.

Definition VInt (n : Z) : value := VAtom (AInt n).
Definition VStr (s : string) : value := VAtom (AStr s).

(** [not value]: Python truthiness, negated. *)
Definition falsy (v : value) : bool :=
  match v with
  | VNone => true
  | VAtom (AInt n) => bool_decide (n = 0)
  | VAtom (AStr s) => bool_decide (s = "")
  | VList l => bool_decide (l = [])
  | VSet s => bool_decide (s = ∅)
  | VMap m => bool_decide (m = ∅)
  end.

(* ===================================================================== *)
(** ** Exceptions and outcomes *)
(* ===================================================================== *)

Inductive exn : Type :=
| CQLEngineException   (* "Primary key was not provided" *)
| LWTException         (* "LWT Query was not applied" *)
| KeyError
| IndexError
| TypeError
| AttributeError
| ValueError
| OverflowError
| OutOfModel.          (* the call is accepted by CPython but its result
                          depends on hash iteration order or on iterating a
                          string; such calls are not described here *)

#[global] Instance exn_eq_dec : EqDecision exn.
Proof. solve_decision. Defined.

Inductive res (A : Type) : Type :=
| Ok (a : A)
| Raise (e : exn).
Arguments Ok {A} a.
Arguments Raise {A} e.

Definition res_bind {A B} (r : res A) (k : A → res B) : res B :=
  match r with
  | Ok a => k a
  | Raise e => Raise e
  end.

Notation "'try!' x ':=' r 'in' k" := (res_bind r (λ x, k))
  (at level 10, x pattern, r at level 100, k at level 200).

Fixpoint res_mapM {A B} (f : A → res B) (l : list A) : res (list B) :=
  match l with
  | [] => Ok []
  | a :: l' => try! b := f a in try! bs := res_mapM f l' in Ok (b :: bs)
  end.

Fixpoint res_foldM {A B} (f : B → A → res B) (acc : B) (l : list A) : res B :=
  match l with
  | [] => Ok acc
  | a :: l' => try! acc' := f acc a in res_foldM f acc' l'
  end.

(** [d[k]] on a dict and [l[i]] on a list. *)
Definition getitem {V} (d : gmap string V) (k : string) : res V :=
  match d !! k with
  | Some v => Ok v
  | None => Raise KeyError
  end.

Definition getidx {A} (l : list A) (i : nat) : res A :=
  match l !! i with
  | Some a => Ok a
  | None => Raise IndexError
  end.

(** Methods with [self]: state in, outcome and state out. *)
Definition M (S A : Type) : Type := S → res A * S.

Definition ret {S A} (a : A) : M S A := λ s, (Ok a, s).
Definition raise {S A} (e : exn) : M S A := λ s, (Raise e, s).
Definition lift {S A} (r : res A) : M S A := λ s, (r, s).
Definition get_state {S} : M S S := λ s, (Ok s, s).
Definition bind {S A B} (m : M S A) (k : A → M S B) : M S B :=
  λ s, match m s with
       | (Ok a, s') => k a s'
       | (Raise e, s') => (Raise e, s')
       end.

Notation "'do!' x ':=' m 'in' k" := (bind m (λ x, k))
  (at level 10, x pattern, m at level 100, k at level 200).

(** [for a in l: body(a)] *)
Fixpoint for_each {S A} (l : list A) (body : A → M S unit) : M S unit :=
  match l with
  | [] => ret tt
  | a :: l' => do! _ := body a in for_each l' body
  end.

(* ===================================================================== *)
(** ** Column classes of cassandra.cqlengine.columns *)
(* ===================================================================== *)

(** Modelled from the spec: the column classes come from the external
    [cassandra.cqlengine.columns] module, which is not part of the
    repository; the classes the store and its acceptance models name, with
    their method resolution order. *)
Inductive klass : Type :=
| KObject
| KColumn
| KBaseCollectionColumn
| KBaseContainerColumn
| KText
| KAscii
| KInteger
| KBigInt
| KBaseFloat
| KDouble
| KBoolean
| KDateTime
| KDate
| KTuple
| KList
| KSet
| KMap.

#[global] Instance klass_eq_dec : EqDecision klass.
Proof. solve_decision. Defined.

Definition mro (k : klass) : list klass :=
  match k with
  | KObject => [KObject]
  | KColumn => [KColumn; KObject]
  | KBaseCollectionColumn => [KBaseCollectionColumn; KColumn; KObject]
  | KBaseContainerColumn =>
      [KBaseContainerColumn; KBaseCollectionColumn; KColumn; KObject]
  | KText => [KText; KColumn; KObject]
  | KAscii => [KAscii; KText; KColumn; KObject]
  | KInteger => [KInteger; KColumn; KObject]
  | KBigInt => [KBigInt; KInteger; KColumn; KObject]
  | KBaseFloat => [KBaseFloat; KColumn; KObject]
  | KDouble => [KDouble; KBaseFloat; KColumn; KObject]
  | KBoolean => [KBoolean; KColumn; KObject]
  | KDateTime => [KDateTime; KColumn; KObject]
  | KDate => [KDate; KColumn; KObject]
  | KTuple => [KTuple; KBaseCollectionColumn; KColumn; KObject]
  | KList =>
      [KList; KBaseContainerColumn; KBaseCollectionColumn; KColumn; KObject]
  | KSet =>
      [KSet; KBaseContainerColumn; KBaseCollectionColumn; KColumn; KObject]
  | KMap =>
      [KMap; KBaseContainerColumn; KBaseCollectionColumn; KColumn; KObject]
  end.

(** A column instance: what the store reads of it.  [types] holds the
    classes of the element columns of a collection column. *)
Record Column : Type := mkColumn {
  db_field_name : string;
  primary_key : bool;
  col_type : klass;
  types : list klass
}.

#[global] Instance Column_eq_dec : EqDecision Column.
Proof. solve_decision. Defined.

(** [isinstance(column, base)] *)
Definition isinstance (c : Column) (base : klass) : bool :=
  bool_decide (base ∈ mro (col_type c)).

(* ===================================================================== *)
(** ** class Table *)
(* ===================================================================== *)

(** What a row holds under a column name is a reference to a Python object.
    [update] stores one argument object in every row it selects, and
    [+=], [set.update], [-=] and [dict.update] change a list, set or dict in
    place, so two rows can show one object.  A cell therefore carries the
    identity [oid] of its object next to the object's content [val]; an
    in-place change rewrites the content in every cell of that identity. *)
Record cell : Type := Cell { oid : nat; val : value }.

#[global] Instance cell_eq_dec : EqDecision cell.
Proof. solve_decision. Defined.

(** The attributes of a [Table] object.  [_columns] is the model's
    [OrderedDict] of columns: the table only looks columns up by name and
    builds sets from it, so its order is not kept.  [_primary_key_names] is a
    Python set; it is iterated through [elements], one fixed enumeration.
    [_next_oid] is not an attribute: it is the identity the next object
    stored in this table gets.  Arguments of a call are objects of their
    own: no caller hands the same list, set or dict to two calls. *)
Record Table : Type := mkTable {
  _name : string;
  _columns : gmap string Column;
  _column_names : gset string;
  _db_map : gmap string string;
  _primary_key_names : gset string;
  _entries : list (gmap string cell);
  _next_oid : nat
}.

Definition set_entries (t : Table) (es : list (gmap string cell)) : Table :=
  {| _name := _name t;
     _columns := _columns t;
     _column_names := _column_names t;
     _db_map := _db_map t;
     _primary_key_names := _primary_key_names t;
     _entries := es;
     _next_oid := _next_oid t |}.

Definition set_next_oid (t : Table) (n : nat) : Table :=
  {| _name := _name t;
     _columns := _columns t;
     _column_names := _column_names t;
     _db_map := _db_map t;
     _primary_key_names := _primary_key_names t;
     _entries := _entries t;
     _next_oid := n |}.

(** [Table.__init__] *)
Definition Table_init (name : string) (columns : gmap string Column)
    (db_map : gmap string string) : Table :=
  {| _name := name;
     _columns := columns;
     _column_names := map_img (db_field_name <$> columns);
     _db_map := db_map;
     _primary_key_names := dom (filter (λ kv, primary_key kv.2 = true) columns);
     _entries := [];
     _next_oid := 0 |}.

(** [{k: f(k) for k in keys}] *)
Definition dict_of_keys {V} (f : string → V) (keys : gset string)
    : gmap string V :=
  set_to_map (λ k, (k, f k)) keys.

(** Position of [k] in an enumeration (0 when absent). *)
Definition index_of (k : string) (l : list string) : nat :=
  default 0%nat (fst <$> list_find (λ x, x = k) l).

(** [Table._find_by_pk]: the inner loop over [zip(names, pks)] has no
    [break]; it reads [entry[pk_name]] for every pair. *)
Definition pk_match (names : list string) (entry : gmap string cell)
    (pks : list value) : res bool :=
  res_foldM
    (λ (mtch : bool) (p : string * value),
       try! c := getitem entry p.1 in
       Ok (if decide (val c ≠ p.2) then false else mtch))
    true (zip names pks).

Fixpoint find_by_pk_loop (names : list string) (pks : list value)
    (entries : list (gmap string cell)) (idx : nat) : res (option nat) :=
  match entries with
  | [] => Ok None
  | entry :: rest =>
      try! mtch := pk_match names entry pks in
      if mtch then Ok (Some idx)
      else find_by_pk_loop names pks rest (S idx)
  end.

Definition _find_by_pk (t : Table) (pks : list value) : res (option nat) :=
  find_by_pk_loop (elements (_primary_key_names t)) pks (_entries t) 0.

(** [Table._default_value]: [default_values.get(type(column))]; an absent
    column is [None], whose type is no key of [default_values]. *)
Definition default_values_get (k : option klass) : value :=
  match k with
  | Some KList => VList []
  | Some KSet => VSet ∅
  | Some KMap => VMap ∅
  | _ => VNone
  end.

Definition _default_value (t : Table) (column_name : string) : value :=
  let column_name := default column_name (_db_map t !! column_name) in
  let column := _columns t !! column_name in
  default_values_get (col_type <$> column).

(** The row [Table.insert] builds from [values]: one object per column,
    the caller's or a new default. *)
Definition insert_entry (t : Table) (values : gmap string value)
    : gmap string cell :=
  dict_of_keys
    (λ column_name,
       Cell (_next_oid t + index_of column_name (elements (_column_names t)))
            (default (_default_value t column_name) (values !! column_name)))
    (_column_names t).

(** [entry.get(pk_field) is None] for some primary-key field. *)
Definition pk_missing (t : Table) (entry : gmap string cell) : bool :=
  existsb (λ pk_field,
             bool_decide (default VNone (val <$> entry !! pk_field) = VNone))
          (elements (_primary_key_names t)).

(** [Table.insert] *)
Definition Table_insert (values : gmap string value) (if_not_exists : bool)
    : M Table unit :=
  λ t,
    let entry := insert_entry t values in
    let t_stored := set_next_oid t (_next_oid t + size (_column_names t)) in
    if pk_missing t entry then (Raise CQLEngineException, t)
    else
      match res_mapM (λ pk_name, try! c := getitem entry pk_name in Ok (val c))
                     (elements (_primary_key_names t)) with
      | Raise e => (Raise e, t)
      | Ok pks =>
          match _find_by_pk t pks with
          | Raise e => (Raise e, t)
          | Ok (Some entry_idx) =>
              if if_not_exists then (Raise LWTException, t)
              else (Ok tt,
                    set_entries t_stored (<[entry_idx := entry]> (_entries t)))
          | Ok None => (Ok tt, set_entries t_stored (_entries t ++ [entry]))
          end
      end.

(* ===================================================================== *)
(** ** Filters: [Table._get_indices_by_kwargs] *)
(* ===================================================================== *)

(** One row against [kwargs]: every key is in the row with an equal value. *)
Definition row_matches (kwargs : gmap string value)
    (entry : gmap string cell) : bool :=
  bool_decide (map_Forall (λ k v, val <$> entry !! k = Some v) kwargs).

(** [limit is not None and len(indices) == limit] *)
Definition limit_reached (limit : value) (indices : list nat) : bool :=
  match limit with
  | VAtom (AInt n) => bool_decide (Z.of_nat (length indices) = n)
  | _ => false
  end.

Fixpoint indices_loop (limit : value) (kwargs : gmap string value)
    (entries : list (gmap string cell)) (idx : nat) (indices : list nat)
    : list nat :=
  match entries with
  | [] => indices
  | entry :: rest =>
      let indices :=
        if row_matches kwargs entry then indices ++ [idx] else indices in
      if limit_reached limit indices then indices
      else indices_loop limit kwargs rest (S idx) indices
  end.

Definition _get_indices_by_kwargs (limit : value)
    (kwargs : gmap string value) (t : Table) : list nat :=
  if decide (kwargs = ∅) then seq 0 (length (_entries t))
  else indices_loop limit kwargs (_entries t) 0 [].

(** [_get_indices_by_kwargs] with the filters unpacked as keyword
    arguments, as [update] and [delete] call it: a filter key spelled
    [limit] binds the parameter of that name and does not reach [kwargs]. *)
Definition indices_of_filters (filters : gmap string value) (t : Table)
    : list nat :=
  _get_indices_by_kwargs (default VNone (filters !! "limit"))
                         (delete "limit" filters) t.

(** [_get_indices_by_kwargs] with [limit] and the unpacked filters, as
    [find] calls it: a filter key spelled [limit] is a second value for the
    parameter. *)
Definition indices_of_find (limit : option Z) (filters : gmap string value)
    (t : Table) : res (list nat) :=
  if decide (is_Some (filters !! "limit")) then Raise TypeError
  else Ok (_get_indices_by_kwargs
             (match limit with Some n => VInt n | None => VNone end)
             filters t).

(** [Table._get_item_by_idx], deep-copied: the content of the selected
    fields. *)
Definition _get_item_by_idx (t : Table) (idx : nat) (select : list string)
    : res (gmap string value) :=
  res_foldM
    (λ (acc : gmap string value) (field_name : string),
       try! entry := getidx (_entries t) idx in
       try! c := getitem entry field_name in
       Ok (<[default field_name (_db_map t !! field_name) := val c]> acc))
    ∅ select.

(** [Table.find]: a read; the table is not changed. *)
Definition Table_find (filters : gmap string value) (limit : option Z)
    (select : list string) (t : Table) : res (list (gmap string value)) :=
  try! indices := indices_of_find limit filters t in
  res_mapM (λ idx, _get_item_by_idx t idx select) indices.

(* ===================================================================== *)
(** ** The built-in operators [_assign_value] applies *)
(* ===================================================================== *)

(** Each operator is given on contents.  Where CPython raises, the
    exception is the one it raises; [OutOfModel] stands for the calls it
    accepts by iterating a set, a dict or a string into another object. *)

(** [stored += value]: a list is extended in place by any iterable; numbers
    and strings add to a new object. *)
Definition py_iadd (stored arg : value) : res value :=
  match stored, arg with
  | VList l, VList l' => Ok (VList (l ++ l'))
  | VList _, (VSet _ | VMap _ | VAtom (AStr _)) => Raise OutOfModel
  | VAtom (AInt x), VAtom (AInt y) => Ok (VInt (x + y))
  | VAtom (AStr x), VAtom (AStr y) => Ok (VStr (x ++ y))
  | _, _ => Raise TypeError
  end.

(** [value + stored] *)
Definition py_add (arg stored : value) : res value :=
  match arg, stored with
  | VList l, VList l' => Ok (VList (l ++ l'))
  | VAtom (AInt x), VAtom (AInt y) => Ok (VInt (x + y))
  | VAtom (AStr x), VAtom (AStr y) => Ok (VStr (x ++ y))
  | _, _ => Raise TypeError
  end.

(** [stored.update(value)] with one positional argument. *)
Definition py_update (stored arg : value) : res value :=
  match stored, arg with
  | VSet s, VSet s' => Ok (VSet (s ∪ s'))
  | VSet s, VList l => Ok (VSet (s ∪ list_to_set l))
  | VSet s, VMap m => Ok (VSet (s ∪ dom m))
  | VSet _, VAtom (AStr _) => Raise OutOfModel
  | VSet _, _ => Raise TypeError
  | VMap m, VMap m' => Ok (VMap (m' ∪ m))
  | VMap _, (VList _ | VSet _ | VAtom (AStr _)) => Raise OutOfModel
  | VMap _, _ => Raise TypeError
  | _, _ => Raise AttributeError
  end.

(** [stored -= value] *)
Definition py_isub (stored arg : value) : res value :=
  match stored, arg with
  | VSet s, VSet s' => Ok (VSet (s ∖ s'))
  | VAtom (AInt x), VAtom (AInt y) => Ok (VInt (x - y))
  | _, _ => Raise TypeError
  end.

Definition is_str (a : atom) : bool :=
  match a with AStr _ => true | AInt _ => false end.

(** [stored.update( **value )]: the attribute is looked up first; the
    keyword unpacking needs a mapping whose keys are all strings. *)
Definition py_update_kwargs (stored arg : value) : res value :=
  match stored with
  | VMap m =>
      match arg with
      | VMap m' =>
          if forallb is_str (elements (dom m')) then Ok (VMap (m' ∪ m))
          else Raise TypeError
      | _ => Raise TypeError
      end
  | VSet s =>
      match arg with
      | VMap m' => if decide (m' = ∅) then Ok (VSet s) else Raise TypeError
      | _ => Raise TypeError
      end
  | _ => Raise AttributeError
  end.

(** [{key: val for key, val in stored.items() if key not in value}] *)
Definition py_dict_without (stored arg : value) : res value :=
  match stored with
  | VMap m =>
      if decide (m = ∅) then Ok (VMap ∅)
      else
        match arg with
        | VSet s => Ok (VMap (filter (λ kv, kv.1 ∉ s) m))
        | VList l => Ok (VMap (filter (λ kv, kv.1 ∉ l) m))
        | VMap m' => Ok (VMap (filter (λ kv, kv.1 ∉ dom m') m))
        | VAtom (AStr _) => Raise OutOfModel
        | _ => Raise TypeError
        end
  | _ => Raise AttributeError
  end.

(* ===================================================================== *)
(** ** [Table._assign_value], [Table.update], [Table.delete] *)
(* ===================================================================== *)

Definition DEFAULT_OPERATOR : string := "assign".

(** [self._entries[item_idx][column]] *)
Definition load_cell (item_idx : nat) (column : string) : M Table cell :=
  λ t, (try! entry := getidx (_entries t) item_idx in getitem entry column, t).

(** [self._entries[item_idx][column] = c] *)
Definition store_cell (item_idx : nat) (column : string) (c : cell)
    : M Table unit :=
  λ t, match _entries t !! item_idx with
       | Some entry =>
           (Ok tt,
            set_entries t (<[item_idx := <[column := c]> entry]> (_entries t)))
       | None => (Raise IndexError, t)
       end.

(** An object changed in place: every cell that holds it shows [v]. *)
Definition rewrite_obj (o : nat) (v : value) (entry : gmap string cell)
    : gmap string cell :=
  (λ c, if decide (oid c = o) then Cell o v else c) <$> entry.

Definition mutate_obj (o : nat) (v : value) : M Table unit :=
  λ t, (Ok tt, set_entries t (rewrite_obj o v <$> _entries t)).

(** A new object of content [v]. *)
Definition alloc (v : value) : M Table cell :=
  λ t, (Ok (Cell (_next_oid t) v), set_next_oid t (S (_next_oid t))).

(** [x op= value] leaves a list or a set the same object, changed. *)
Definition in_place (stored : value) : bool :=
  match stored with
  | VList _ | VSet _ | VMap _ => true
  | _ => false
  end.

(** [self._entries[item_idx][column] op= value] *)
Definition augmented (op : value → value → res value)
    (item_idx : nat) (column : string) (arg : cell) : M Table unit :=
  do! stored := load_cell item_idx column in
  do! v := lift (op (val stored) (val arg)) in
  if in_place (val stored) then mutate_obj (oid stored) v
  else do! c := alloc v in store_cell item_idx column c.

(** [self._entries[item_idx][column].method(value)] *)
Definition method_call (op : value → value → res value)
    (item_idx : nat) (column : string) (arg : cell) : M Table unit :=
  do! stored := load_cell item_idx column in
  do! v := lift (op (val stored) (val arg)) in
  mutate_obj (oid stored) v.

(** [self._entries[item_idx][column] = expression], a new object. *)
Definition rebuilt (op : value → value → res value)
    (item_idx : nat) (column : string) (arg : cell) : M Table unit :=
  do! stored := load_cell item_idx column in
  do! v := lift (op (val stored) (val arg)) in
  do! c := alloc v in
  store_cell item_idx column c.

(** [Table._assign_value] *)
Definition _assign_value (item_idx : nat) (column : string)
    (operator : string) (arg : cell) : M Table unit :=
  if decide (operator = DEFAULT_OPERATOR) then store_cell item_idx column arg
  else
    do! t := get_state in
    do! col := lift (getitem (_columns t) column) in
    if isinstance col KList && bool_decide (operator = "append") then
      augmented py_iadd item_idx column arg
    else if isinstance col KList && bool_decide (operator = "prepend") then
      rebuilt (λ stored v, py_add v stored) item_idx column arg
    else if isinstance col KSet && bool_decide (operator = "add") then
      method_call py_update item_idx column arg
    else if isinstance col KSet && bool_decide (operator = "remove") then
      augmented py_isub item_idx column arg
    else if isinstance col KMap && bool_decide (operator = "update") then
      method_call py_update_kwargs item_idx column arg
    else if isinstance col KMap && bool_decide (operator = "remove") then
      rebuilt py_dict_without item_idx column arg
    else ret tt.

(** The argument objects of one [update] call, one identity each. *)
Definition arg_cells (base : nat) (values : list (string * string * value))
    : list (string * string * cell) :=
  imap (λ j p, (p.1.1, p.1.2, Cell (base + j) p.2)) values.

(** [Table.update] *)
Definition Table_update (filters : gmap string value)
    (values : list (string * string * value)) (if_exists : bool)
    : M Table unit :=
  λ t,
    let indices := indices_of_filters filters t in
    if bool_decide (indices = []) && if_exists then (Raise LWTException, t)
    else
      for_each indices
        (λ idx,
           for_each (arg_cells (_next_oid t) values)
             (λ p,
                if decide (p.1.1 ∈ _column_names t)
                then _assign_value idx p.1.1 p.1.2 p.2
                else ret tt))
        (set_next_oid t (_next_oid t + length values)).

(** [Table.delete] *)
Definition Table_delete (filters : gmap string value) (if_exists : bool)
    : M Table unit :=
  λ t,
    if decide (filters = ∅) then (Ok tt, set_entries t [])
    else
      let indices := indices_of_filters filters t in
      if bool_decide (indices = []) && if_exists then (Raise LWTException, t)
      else
        (Ok tt,
         set_entries t
           (foldl (λ es index, delete index es) (_entries t)
                  (reverse (merge_sort Nat.le indices)))).

(* ===================================================================== *)
(** ** class Keyspace and the module-level registries *)
(* ===================================================================== *)

Record Keyspace : Type := mkKeyspace {
  ks_name : string;
  _tables : gmap string Table
}.

(** [Keyspace.__init__] *)
Definition Keyspace_init (name : string) : Keyspace := mkKeyspace name ∅.

(** [Keyspace.add_table] *)
Definition add_table (name : string) (fields : gmap string Column)
    (db_map : gmap string string) (ks : Keyspace) : Keyspace :=
  mkKeyspace (ks_name ks) (<[name := Table_init name fields db_map]> (_tables ks)).

(** [Keyspace.get_table] *)
Definition get_table (table_name : string) (ks : Keyspace) : res Table :=
  getitem (_tables ks) table_name.

(** The two module-level stores of [connection.py]: [_keyspaces], and
    [_entries], a [defaultdict(list)] of rows by table name.  No code path
    assigns objects of [module_entries] in place, so its rows are kept by
    content. *)
Record Registry : Type := mkRegistry {
  module_keyspaces : gmap string Keyspace;
  module_entries : gmap string (list (gmap string value))
}.

(** The module as imported. *)
Definition Registry_init : Registry := mkRegistry ∅ ∅.

(** [create_keyspace] *)
Definition create_keyspace (name : string) (st : Registry) : Registry :=
  mkRegistry (<[name := Keyspace_init name]> (module_keyspaces st))
           (module_entries st).

(** [get_keyspace] *)
Definition get_keyspace (name : string) (st : Registry) : res Keyspace :=
  getitem (module_keyspaces st) name.

(** [flush]: rebinds the module-level [_entries]. *)
Definition flush (st : Registry) : Registry :=
  mkRegistry (module_keyspaces st) ∅.

(** A method of the table [table_name] of keyspace [ks_name'], run on the
    registry: the table object is changed where it sits. *)
Definition on_table {A} (ks_name' table_name : string) (m : M Table A)
    : M Registry A :=
  λ st,
    match get_keyspace ks_name' st with
    | Raise e => (Raise e, st)
    | Ok ks =>
        match get_table table_name ks with
        | Raise e => (Raise e, st)
        | Ok t =>
            let '(r, t') := m t in
            (r,
             mkRegistry
               (<[ks_name' := mkKeyspace (ks_name ks)
                                (<[table_name := t']> (_tables ks))]>
                  (module_keyspaces st))
               (module_entries st))
        end
    end.

(* ===================================================================== *)
(** ** Statements and their clauses *)
(* ===================================================================== *)

(** Modelled from the spec: the statement classes come from the external
    [cassandra.cqlengine.statements] module; a statement is what the
    executors read of it: the table, equality filters, projected fields, a
    limit, assignment clauses with their operation, and the
    lightweight-transaction flag. *)
Record clause : Type := mkClause {
  field : string;
  value_of : value;
  _operation : option string
}.

Inductive statement : Type :=
| SelectStatement (table : string) (where_clauses : list clause)
    (fields : list string) (limit : option Z)
| InsertStatement (table : string) (assignments : list clause)
    (if_not_exists : bool)
| UpdateStatement (table : string) (where_clauses : list clause)
    (assignments : list clause) (if_exists : bool)
| DeleteStatement (table : string) (where_clauses : list clause)
    (fields : list clause) (if_exists : bool)
| OtherStatement (table : string).

Definition stmt_table (s : statement) : string :=
  match s with
  | SelectStatement t _ _ _ | InsertStatement t _ _
  | UpdateStatement t _ _ _ | DeleteStatement t _ _ _ | OtherStatement t => t
  end.

(** What the executors read of a model class. *)
Record Model : Type := mkModel {
  model_keyspace : string;
  model_columns : gmap string Column;
  model_db_map : gmap string string
}.

(** [clauses_to_dict] *)
Definition clauses_to_dict (assignments : list clause) : gmap string value :=
  foldl (λ payload a, <[field a := value_of a]> payload) ∅ assignments.

Definition SUPPORTED_OPERATIONS : list string :=
  ["append"; "prepend"; "update"; "remove"; "add"; DEFAULT_OPERATOR].

(** [_assigment_to_operator] *)
Definition _assigment_to_operator (assignment : clause) : string :=
  match _operation assignment with
  | Some operation =>
      if bool_decide (operation ≠ "")
         && bool_decide (operation ∈ SUPPORTED_OPERATIONS)
      then operation else DEFAULT_OPERATOR
  | None => DEFAULT_OPERATOR
  end.

(** [_assignment_to_tuple] and [assignments_to_list] *)
Definition _assignment_to_tuple (assignment : clause)
    : string * string * value :=
  (field assignment, _assigment_to_operator assignment, value_of assignment).

Definition assignments_to_list (assignments : list clause)
    : list (string * string * value) :=
  _assignment_to_tuple <$> assignments.

(** [attributes_matched] *)
Definition attributes_matched (source_dict lookup_dict : gmap string value)
    : bool :=
  if decide (lookup_dict = ∅) then false
  else bool_decide (map_Forall (λ k v, source_dict !! k = Some v) lookup_dict).

(** [lookup_items]: reads the module-level [_entries]. *)
Definition lookup_items (tbl_name : string) (assignments : list clause)
    (st : Registry) : list nat :=
  let assignments_dict := clauses_to_dict assignments in
  (imap (λ idx item, (idx, item))
        (default [] (module_entries st !! tbl_name)))
    ≫= (λ p, if attributes_matched p.2 assignments_dict
                 || bool_decide (assignments = [])
              then [p.1] else []).

(** [str.split('.')] *)
Fixpoint split_dot_aux (s : string) (cur : string) : list string :=
  match s with
  | EmptyString => [cur]
  | String a s' =>
      if Ascii.eqb a "."%char then cur :: split_dot_aux s' ""
      else split_dot_aux s' (cur ++ String a EmptyString)
  end.

Definition split_dot (s : string) : list string := split_dot_aux s "".

(** [_get_ks_table_name] *)
Definition _get_ks_table_name (model : Model) (stmt : statement)
    : res (string * string) :=
  match split_dot (stmt_table stmt) with
  | [_] => Ok (model_keyspace model, stmt_table stmt)
  | [ks; tbl] => Ok (ks, tbl)
  | _ => Raise ValueError
  end.

(* ===================================================================== *)
(** ** Read-path normalizers *)
(* ===================================================================== *)

(** What a normalizer returns: the stored value as it is, a float, a
    [datetime.date] (counted in days from 1970-01-01), or a collection of
    normalized elements.  The elements of [ESet] stand for a Python set:
    their order means nothing and equal elements are one. *)
#[local] Unset Elimination Schemes.
Inductive ext : Type :=
| ERaw (v : value)
| EFloat (f : float)
| EDate (days : Z)
| EList (l : list ext)
| ESet (l : list ext)
| EDict (l : list (ext * ext)).
#[local] Set Elimination Schemes.

(** [float(n)] for an integer below [2^63] in absolute value; larger
    integers are not described. *)
Definition float_of_Z (n : Z) : res float :=
  if decide (0 ≤ n < 2 ^ 63) then Ok (PrimFloat.of_uint63 (Uint63.of_Z n))
  else if decide (- 2 ^ 63 < n < 0)
       then Ok (PrimFloat.opp (PrimFloat.of_uint63 (Uint63.of_Z (- n))))
       else Raise OutOfModel.

(** [normalize_datetime]: [dt / 1e3]. *)
Definition normalize_datetime (dt : value) : res ext :=
  match dt with
  | VAtom (AInt n) =>
      try! f := float_of_Z n in Ok (EFloat (PrimFloat.div f 1000%float))
  | _ => Raise TypeError
  end.

(** [SimpleDateType.EPOCH_OFFSET_DAYS] of [cassandra.cqltypes]. *)
Definition EPOCH_OFFSET_DAYS : Z := 2 ^ 31.

(** The [Date] normalizer:
    [(datetime(1970, 1, 1) + timedelta(dt - EPOCH_OFFSET_DAYS)).date()];
    the sum overflows outside the years 1 to 9999. *)
Definition normalize_date (dt : value) : res ext :=
  match dt with
  | VAtom (AInt n) =>
      let days := n - EPOCH_OFFSET_DAYS in
      if decide ((-719162 ≤ days ≤ 2932896)%Z) then Ok (EDate days)
      else Raise OverflowError
  | _ => Raise TypeError
  end.

Inductive formatter : Type :=
| F_normalize_datetime
| F_date
| F_process_map
| F_process_set
| F_process_list.

(** [format_normalizers] *)
Definition format_normalizers (cls : klass) : option formatter :=
  match cls with
  | KDateTime => Some F_normalize_datetime
  | KDate => Some F_date
  | KMap => Some F_process_map
  | KSet => Some F_process_set
  | KList => Some F_process_list
  | _ => None
  end.

(** [get_formatter]: [None] stands for the class of [None], whose
    resolution order holds no column class. *)
Fixpoint get_formatter_loop (classes : list klass) : option formatter :=
  match classes with
  | [] => None
  | cls :: rest =>
      if decide (cls = KBaseContainerColumn) then None
      else match format_normalizers cls with
           | Some f => Some f
           | None => get_formatter_loop rest
           end
  end.

Definition get_formatter (column : option klass) : option formatter :=
  match column with
  | Some k => get_formatter_loop (mro k)
  | None => None
  end.

(** [normalize_value]: the formatter is called with the class [col_type],
    not the column: a collection formatter that needs [c.types] raises. *)
Definition normalize_value (v : value) (column : klass) : res ext :=
  match get_formatter (Some column) with
  | Some F_normalize_datetime => normalize_datetime v
  | Some F_date => normalize_date v
  | Some (F_process_map | F_process_set | F_process_list) =>
      if falsy v then Ok (ERaw v) else Raise AttributeError
  | None => Ok (ERaw v)
  end.

(** [process_list], [process_set], [process_map], called with a column
    instance or with [None]. *)
Definition process_list (v : value) (c : option Column) : res ext :=
  if falsy v then Ok (ERaw v)
  else
    match c with
    | None => Raise AttributeError
    | Some col =>
        match types col with
        | [] => Raise IndexError
        | value_type :: _ =>
            match v with
            | VList l =>
                try! l' := res_mapM (λ a, normalize_value (VAtom a) value_type) l
                in Ok (EList l')
            | VAtom (AInt _) => Raise TypeError
            | _ => Raise OutOfModel
            end
        end
    end.

Definition process_set (v : value) (c : option Column) : res ext :=
  if falsy v then Ok (ERaw v)
  else
    match c with
    | None => Raise AttributeError
    | Some col =>
        match types col with
        | [] => Raise IndexError
        | value_type :: _ =>
            match v with
            | VSet s =>
                try! l' := res_mapM (λ a, normalize_value (VAtom a) value_type)
                                    (elements s)
                in Ok (ESet l')
            | VList l =>
                try! l' := res_mapM (λ a, normalize_value (VAtom a) value_type) l
                in Ok (ESet l')
            | VAtom (AInt _) => Raise TypeError
            | _ => Raise OutOfModel
            end
        end
    end.

Definition process_map (v : value) (c : option Column) : res ext :=
  if falsy v then Ok (ERaw v)
  else
    match c with
    | None => Raise AttributeError
    | Some col =>
        match types col with
        | [key_type; value_type] =>
            match v with
            | VMap m =>
                try! l' :=
                  res_mapM
                    (λ kv : atom * atom,
                       try! k := normalize_value (VAtom kv.1) key_type in
                       try! x := normalize_value (VAtom kv.2) value_type in
                       Ok (k, x))
                    (map_to_list m)
                in Ok (EDict l')
            | _ => Raise AttributeError
            end
        | _ => Raise ValueError
        end
    end.

Definition apply_formatter (f : formatter) (v : value) (c : option Column)
    : res ext :=
  match f with
  | F_normalize_datetime => normalize_datetime v
  | F_date => normalize_date v
  | F_process_map => process_map v c
  | F_process_set => process_set v c
  | F_process_list => process_list v c
  end.

(** [get_formatter_from_model] *)
Definition get_formatter_from_model (model : Model) (col_name : string)
    : option formatter :=
  let col_name :=
    match model_db_map model !! col_name with
    | Some n => if decide (n = "") then col_name else n
    | None => col_name
    end in
  let column := model_columns model !! col_name in
  get_formatter (col_type <$> column).

(** One cell of [normalize]. *)
Definition normalize_cell (model : Model) (k : string) (v : value) : res ext :=
  match get_formatter_from_model model k with
  | Some normalizer => apply_formatter normalizer v (model_columns model !! k)
  | None => Ok (ERaw v)
  end.

(** [normalize]: the cells are visited in the order of [map_to_list]; when
    several cells raise, which exception comes first follows that order. *)
Definition normalize (model : Model) (d : gmap string value)
    : res (gmap string ext) :=
  try! l := res_mapM (λ kv : string * value,
                        try! e := normalize_cell model kv.1 kv.2 in
                        Ok (kv.1, e))
                     (map_to_list d)
  in Ok (list_to_map l).

(* ===================================================================== *)
(** ** The statement executors *)
(* ===================================================================== *)

(** What [_execute] returns: [None], a list of rows, or what the batch's
    [add_query] returns. *)
Inductive result : Type :=
| RNone
| RRows (rows : list (gmap string ext))
| RBatched.

(** [ModelQuerySet._execute] *)
Definition ModelQuerySet_execute (model : Model) (_batch : bool)
    (stmt : statement) : M Registry result :=
  do! names := lift (_get_ks_table_name model stmt) in
  do! keyspace := (λ st, (get_keyspace names.1 st, st)) in
  do! _ := lift (get_table names.2 keyspace) in
  if _batch then ret RBatched
  else
    match stmt with
    | SelectStatement _ where_clauses fields limit =>
        do! entries :=
          on_table names.1 names.2
            (λ t, (Table_find (clauses_to_dict where_clauses) limit fields t, t))
        in
        match entries with
        | [] => ret (RRows [])
        | _ => do! rows := lift (res_mapM (normalize model) entries) in
               ret (RRows rows)
        end
    | UpdateStatement _ where_clauses assignments if_exists =>
        do! _ := on_table names.1 names.2
                   (Table_update (clauses_to_dict where_clauses)
                                 (assignments_to_list assignments) if_exists)
        in ret RNone
    | DeleteStatement _ where_clauses _ if_exists =>
        do! _ := on_table names.1 names.2
                   (Table_delete (clauses_to_dict where_clauses) if_exists)
        in ret RNone
    | _ => ret RNone
    end.

(** [_entries.get(statement.table, [])[idx][stmt_field.field] = value],
    guarded by the length test, on the module-level [_entries]. *)
Definition null_field (tbl : string) (idx : nat) (stmt_field : clause)
    : M Registry unit :=
  λ st,
    match module_entries st !! tbl with
    | Some rows =>
        match rows !! idx with
        | Some item =>
            (Ok tt,
             mkRegistry (module_keyspaces st)
               (<[tbl := <[idx := <[field stmt_field := value_of stmt_field]>
                                     item]> rows]>
                  (module_entries st)))
        | None => (Ok tt, st)
        end
    | None => (Ok tt, st)
    end.

(** [DMLQuery._execute] *)
Definition DMLQuery_execute (model : Model) (_batch : bool)
    (stmt : statement) : M Registry result :=
  do! names := lift (_get_ks_table_name model stmt) in
  do! keyspace := (λ st, (get_keyspace names.1 st, st)) in
  do! _ := lift (get_table names.2 keyspace) in
  if _batch then ret RBatched
  else
    do! _ :=
      match stmt with
      | InsertStatement _ assignments if_not_exists =>
          on_table names.1 names.2
            (Table_insert (clauses_to_dict assignments) if_not_exists)
      | DeleteStatement tbl where_clauses fields _ =>
          do! st := get_state in
          let indices := lookup_items tbl where_clauses st in
          match fields with
          | _ :: _ =>
              for_each indices
                (λ idx, for_each fields (λ stmt_field,
                                            null_field tbl idx stmt_field))
          | [] =>
              on_table names.1 names.2
                (Table_delete (clauses_to_dict where_clauses) false)
          end
      | UpdateStatement _ where_clauses assignments _ =>
          on_table names.1 names.2
            (Table_update (clauses_to_dict where_clauses)
                          (assignments_to_list assignments) false)
      | _ => ret tt
      end
    in ret (RRows []).

(** [ModelQuerySet.count]: [_count] is the count the queryset has cached,
    [query] the statement its [_select_query()] builds; the state is the
    registry with the cache.  [len] of what [_execute] returned is taken. *)
Definition ModelQuerySet_count (model : Model) (_batch : bool)
    (query : statement) : M (Registry * option nat) nat :=
  λ s,
    if _batch then (Raise CQLEngineException, s)
    else
      match s.2 with
      | Some n => (Ok n, s)
      | None =>
          match ModelQuerySet_execute model _batch query s.1 with
          | (Ok (RRows rows), st') =>
              (Ok (length rows), (st', Some (length rows)))
          | (Ok _, st') => (Raise TypeError, (st', None))
          | (Raise e, st') => (Raise e, (st', None))
          end
      end.

(* ===================================================================== *)
(** ** base/creation.py *)
(* ===================================================================== *)

(** [drop_keyspace] of [base/creation.py], on that module's
    [_keyspaces = defaultdict(set)]: reading [_keyspaces[name]] puts an
    empty set under a missing name, and [set.remove] raises on an absent
    alias. *)
Definition drop_keyspace (name : string) (aliases : list string)
    : M (gmap string (gset string)) unit :=
  for_each aliases
    (λ alias ks,
       let s := default ∅ (ks !! name) in
       if decide (alias ∈ s) then (Ok tt, <[name := s ∖ {[alias]}]> ks)
       else (Raise KeyError, <[name := s]> ks)).

(* ===================================================================== *)
(** * Properties *)
(* ===================================================================== *)

(** ** What the claims speak of *)

(** The primary-key tuple of a row: the content under each key name, in
    the enumeration [names] ([None] where the row has no such key). *)
Definition pk_tuple (names : list string) (r : gmap string cell)
    : list (option value) :=
  (λ k, val <$> r !! k) <$> names.

Definition pk_names (t : Table) : list string :=
  elements (_primary_key_names t).

(** No two stored rows share a primary-key tuple. *)
Definition pk_unique (t : Table) : Prop :=
  NoDup (pk_tuple (pk_names t) <$> _entries t).

(** A sequence of [Table.insert] calls, each returning or raising. *)
Definition run_inserts (calls : list (gmap string value * bool)) (t : Table)
    : Table :=
  foldl (λ t c, (Table_insert c.1 c.2 t).2) t calls.

(** What a call of [Table.insert] can do to the table. *)
Inductive insert_outcome (t : Table) (values : gmap string value)
    (ine : bool) : res unit * Table → Prop :=
| insert_raises e :
    insert_outcome t values ine (Raise e, t)
| insert_replaces idx r :
    ine = false →
    _entries t !! idx = Some r →
    pk_tuple (pk_names t) r = pk_tuple (pk_names t) (insert_entry t values) →
    insert_outcome t values ine
      (Ok tt,
       set_entries (set_next_oid t (_next_oid t + size (_column_names t)))
                   (<[idx := insert_entry t values]> (_entries t)))
| insert_appends :
    (∀ r, r ∈ _entries t →
          pk_tuple (pk_names t) r
            ≠ pk_tuple (pk_names t) (insert_entry t values)) →
    insert_outcome t values ine
      (Ok tt,
       set_entries (set_next_oid t (_next_oid t + size (_column_names t)))
                   (_entries t ++ [insert_entry t values])).

(** ** Concrete tables and statements, after the acceptance test *)

(** The columns of [tests/acceptance/app/models.py], without the aliased
    [height]. *)
Definition user_columns : gmap string Column :=
  <["username" := mkColumn "username" true KText []]>
  (<["company" := mkColumn "company" true KInteger []]>
  (<["created_at" := mkColumn "created_at" false KDateTime []]>
  (<["skills" := mkColumn "skills" false KList [KText]]>
  (<["skill_matrix" := mkColumn "skill_matrix" false KMap [KText; KInteger]]>
  (<["assignments" := mkColumn "assignments" false KSet [KText]]> ∅))))).

Definition user_table : Table := Table_init "user_fake" user_columns ∅.

Definition user_values (username : string) (company : Z)
    : gmap string value :=
  <["username" := VStr username]> (<["company" := VInt company]>
  (<["skills" := VList [AStr "python"; AStr "docker"]]> ∅)).

(** A table whose columns hold no primary key. *)
Definition log_columns : gmap string Column :=
  <["line" := mkColumn "line" false KText []]> ∅.

Definition log_table : Table := Table_init "log" log_columns ∅.

(** A keyspace whose table [user_fake] holds one row. *)
Definition fake_keyspace : Keyspace :=
  mkKeyspace "fake"
    (<["user_fake" := (Table_insert (user_values "user1" 390) false
                         user_table).2]> ∅).

(** The user table after [user1] and [user2] were inserted. *)
Definition two_users : Table :=
  run_inserts [(user_values "user1" 390, false);
               (user_values "user2" 800, false)] user_table.

(** The acceptance model, and the registry after its schema sync. *)
Definition fake_model : Model := mkModel "fake" user_columns ∅.

Definition synced : Registry :=
  let st := create_keyspace "fake" Registry_init in
  mkRegistry
    (alter (add_table "user_fake" user_columns ∅) "fake" (module_keyspaces st))
    (module_entries st).

Definition insert_user1 : statement :=
  InsertStatement "user_fake"
    [mkClause "username" (VStr "user1") None;
     mkClause "company" (VInt 390) None;
     mkClause "created_at" (VInt 1000) None] false.

Definition one_user : Registry :=
  (DMLQuery_execute fake_model false insert_user1 synced).2.

Definition select_names : statement :=
  SelectStatement "user_fake" [] ["username"; "company"] None.

Definition null_created_at : statement :=
  DeleteStatement "user_fake"
    [mkClause "username" (VStr "user1") None;
     mkClause "company" (VInt 390) None]
    [mkClause "created_at" VNone None] false.

Definition select_created_at : statement :=
  SelectStatement "user_fake"
    [mkClause "username" (VStr "user1") None] ["created_at"] None.

(** Every stored row has the columns of the table: what [insert] builds
    and [update] keeps. *)
Definition rows_keyed (t : Table) : Prop :=
  ∀ r, r ∈ _entries t → dom r = _column_names t.


(** The key of [user1] alone, without skills. *)
Definition user1_bare : gmap string value :=
  <["username" := VStr "user1"]> (<["company" := VInt 390]> ∅).

(** The content stored in row [idx] under [column]. *)
Definition cell_val (t : Table) (idx : nat) (column : string)
    : option value :=
  match _entries t !! idx with
  | Some r => val <$> r !! column
  | None => None
  end.

(** The first stored row of [two_users]. *)
Definition user1_row : gmap string cell :=
  default ∅ (_entries two_users !! 0%nat).

(** A table with the key [id] and the list column [tags], and that table
    after rows [{id: i, tags: []}] were inserted. *)
Definition tag_columns : gmap string Column :=
  <["id" := mkColumn "id" true KInteger []]>
  (<["tags" := mkColumn "tags" false KList [KText]]> ∅).

Definition tagged (ids : list Z) : Table :=
  run_inserts ((λ i, ({[ "id" := VInt i; "tags" := VList [] ]}, false)) <$> ids)
              (Table_init "tagged" tag_columns ∅).


(** ** What the further properties speak of *)




(** A call of one of the three methods that change a table, and a
    sequence of such calls, each returning or raising. *)
Inductive table_call : Type :=
| CallInsert (values : gmap string value) (if_not_exists : bool)
| CallUpdate (filters : gmap string value)
    (values : list (string * string * value)) (if_exists : bool)
| CallDelete (filters : gmap string value) (if_exists : bool).

Definition run_call (c : table_call) (t : Table) : res unit * Table :=
  match c with
  | CallInsert values if_not_exists => Table_insert values if_not_exists t
  | CallUpdate filters values if_exists =>
      Table_update filters values if_exists t
  | CallDelete filters if_exists => Table_delete filters if_exists t
  end.

Definition run_calls (calls : list table_call) (t : Table) : Table :=
  foldl (λ t c, (run_call c t).2) t calls.

(** The attributes [__init__] sets and no method rebinds. *)
Definition same_schema (t t' : Table) : Prop :=
  _name t' = _name t ∧ _columns t' = _columns t
  ∧ _column_names t' = _column_names t ∧ _db_map t' = _db_map t
  ∧ _primary_key_names t' = _primary_key_names t.

(** What [update] keeps of the table [t] it was called on: the schema,
    the number of rows, and rows keyed by the table's columns. *)
Definition update_keeps (t s : Table) : Prop :=
  same_schema t s ∧ length (_entries s) = length (_entries t)
  ∧ (rows_keyed t → rows_keyed s).


(** The table [get_keyspace(ks).get_table(tbl)] finds, if any. *)
Definition lookup_table (ks tbl : string) (st : Registry) : option Table :=
  k ← module_keyspaces st !! ks; _tables k !! tbl.

(** Whether a name holds a dot. *)
Fixpoint has_dot (s : string) : bool :=
  match s with
  | EmptyString => false
  | String a s' => Ascii.eqb a "."%char || has_dot s'
  end.

(** ** Helper lemmas *)

Section helpers.

Lemma lookup_dict_of_keys {V} (f : string → V) (keys : gset string) k :
  dict_of_keys f keys !! k = if decide (k ∈ keys) then Some (f k) else None.
Proof.
  unfold dict_of_keys.
  destruct (decide (k ∈ keys)) as [Hin|Hnin].
  - apply lookup_set_to_map; [naive_solver|]. by exists k.
  - apply eq_None_not_Some. intros [x Hx].
    apply lookup_set_to_map in Hx; [|naive_solver].
    destruct Hx as (y & Hy & Heq). by simplify_eq.
Qed.

Lemma lookup_insert_entry t values k :
  val <$> insert_entry t values !! k =
    if decide (k ∈ _column_names t)
    then Some (default (_default_value t k) (values !! k)) else None.
Proof.
  unfold insert_entry. rewrite lookup_dict_of_keys. by case_decide.
Qed.

(** Reading the key content of a row, as [insert] does for the new row. *)
Lemma res_mapM_key_vals (names : list string) (r : gmap string cell) pks :
  res_mapM (λ pk_name, try! c := getitem r pk_name in Ok (val c)) names
    = Ok pks →
  pk_tuple names r = Some <$> pks.
Proof.
  revert pks. induction names as [|k names IH]; intros pks Hm; simpl in *.
  - by simplify_eq.
  - unfold getitem in Hm at 1. destruct (r !! k) as [c|] eqn:Hk; [|done].
    simpl in Hm.
    destruct (res_mapM _ names) as [bs|] eqn:Hbs; [|done].
    simpl in Hm. simplify_eq. unfold pk_tuple in *.
    rewrite ?fmap_cons, ?Hk. simpl. f_equal. by apply IH.
Qed.

(** The inner loop of [_find_by_pk] returns the conjunction of the
    comparisons. *)
Lemma pk_match_acc (r : gmap string cell) names pks b b' :
  length names = length pks →
  res_foldM
    (λ (mtch : bool) (p : string * value),
       try! c := getitem r p.1 in
       Ok (if decide (val c ≠ p.2) then false else mtch))
    b (zip names pks) = Ok b' →
  b' = b && bool_decide (pk_tuple names r = Some <$> pks).
Proof.
  revert pks b. induction names as [|k names IH]; intros [|v pks] b Hlen Hf;
    simpl in Hlen, Hf; try done.
  - simplify_eq. by rewrite andb_true_r.
  - unfold getitem in Hf at 1. destruct (r !! k) as [c|] eqn:Hk; [|done].
    simpl in Hf. apply IH in Hf; [|lia]. clear IH. rewrite Hf.
    unfold pk_tuple. rewrite !fmap_cons, Hk. simpl.
    destruct (decide (val c ≠ v)) as [Hne|Heq%dec_stable]; simpl.
    + rewrite (bool_decide_eq_false_2 (_ :: _ = _ :: _));
        [by rewrite andb_false_r|].
      intros ?. simplify_eq.
    + subst v. f_equal. apply bool_decide_ext.
      split; intros ?; simplify_eq; by f_equal.
Qed.

Lemma pk_match_spec names (r : gmap string cell) pks b :
  length names = length pks →
  pk_match names r pks = Ok b →
  b = bool_decide (pk_tuple names r = Some <$> pks).
Proof. intros Hlen Hm. by apply pk_match_acc in Hm. Qed.

Lemma find_by_pk_loop_Some names pks entries i0 idx :
  length names = length pks →
  find_by_pk_loop names pks entries i0 = Ok (Some idx) →
  ∃ j r, idx = (i0 + j)%nat ∧ entries !! j = Some r
         ∧ pk_tuple names r = Some <$> pks.
Proof.
  intros Hlen. revert i0.
  induction entries as [|e entries IH]; intros i0 Hf; simpl in *; [done|].
  destruct (pk_match names e pks) as [b|] eqn:Hm; [|done]. simpl in Hf.
  apply pk_match_spec in Hm; [|done]. destruct b.
  - simplify_eq. exists 0%nat, e. split_and!; [lia|done|].
    symmetry in Hm. by apply bool_decide_eq_true in Hm.
  - apply IH in Hf as (j & r & -> & Hj & Hr).
    exists (S j), r. split_and!; [lia|done|done].
Qed.

Lemma find_by_pk_loop_None names pks entries i0 :
  length names = length pks →
  find_by_pk_loop names pks entries i0 = Ok None →
  ∀ r, r ∈ entries → pk_tuple names r ≠ Some <$> pks.
Proof.
  intros Hlen. revert i0.
  induction entries as [|e entries IH]; intros i0 Hf r Hr; simpl in *.
  - by apply elem_of_nil in Hr.
  - destruct (pk_match names e pks) as [b|] eqn:Hm; [|done]. simpl in Hf.
    apply pk_match_spec in Hm; [|done]. destruct b; [done|].
    apply elem_of_cons in Hr as [->|Hr].
    + symmetry in Hm. by apply bool_decide_eq_false in Hm.
    + by eapply IH.
Qed.

Lemma res_mapM_length {A B} (f : A → res B) l bs :
  res_mapM f l = Ok bs → length bs = length l.
Proof.
  revert bs. induction l as [|a l IH]; intros bs Hm; simpl in *.
  - by simplify_eq.
  - destruct (f a); [|done]. simpl in Hm.
    destruct (res_mapM f l); [|done]. simpl in Hm. simplify_eq.
    simpl. f_equal. by apply IH.
Qed.

Lemma Table_insert_outcome t values ine :
  insert_outcome t values ine (Table_insert values ine t).
Proof.
  unfold Table_insert.
  destruct (pk_missing t (insert_entry t values)); [constructor|].
  destruct (res_mapM _ _) as [pks|] eqn:Hpks; [|constructor].
  pose proof (res_mapM_length _ _ _ Hpks) as Hlen.
  apply res_mapM_key_vals in Hpks. fold (pk_names t) in Hpks.
  destruct (_find_by_pk t pks) as [[idx|]|] eqn:Hf; [| |constructor].
  - destruct ine; [constructor|].
    unfold _find_by_pk in Hf.
    apply find_by_pk_loop_Some in Hf as (j & r & -> & Hj & Hr); [|done].
    eapply insert_replaces; [done|done|]. fold (pk_names t) in Hr. congruence.
  - apply insert_appends. intros r Hr.
    unfold _find_by_pk in Hf.
    eapply find_by_pk_loop_None in Hf; [|done|done].
    fold (pk_names t) in Hf. congruence.
Qed.

Lemma Table_insert_pk_unique t values ine :
  pk_unique t → pk_unique (Table_insert values ine t).2.
Proof.
  intros Hu. destruct (Table_insert_outcome t values ine) as [e|idx r _ Hi Hr|Hn];
    [done| |].
  - change (NoDup (pk_tuple (pk_names t)
                     <$> <[idx := insert_entry t values]> (_entries t))).
    rewrite list_fmap_insert, <- Hr, list_insert_id; [done|].
    by rewrite list_lookup_fmap, Hi.
  - change (NoDup (pk_tuple (pk_names t)
                     <$> (_entries t ++ [insert_entry t values]))).
    rewrite fmap_app. apply NoDup_app.
    split_and!; [done| |apply NoDup_singleton].
    intros x (r & -> & Hr)%list_elem_of_fmap Hx.
    apply list_elem_of_singleton in Hx. by apply Hn in Hr.
Qed.

Lemma Table_insert_pk_names t values ine :
  pk_names (Table_insert values ine t).2 = pk_names t.
Proof. by destruct (Table_insert_outcome t values ine). Qed.

Lemma run_inserts_pk_unique calls t :
  pk_unique t → pk_unique (run_inserts calls t).
Proof.
  revert t. induction calls as [|c calls IH]; intros t Hu; simpl; [done|].
  apply IH. by apply Table_insert_pk_unique.
Qed.

End helpers.

(* ===================================================================== *)
(** ** C1: primary-key uniqueness *)
(* ===================================================================== *)

(** C1. For a table with at least one primary-key column, after any
    sequence of [Table.insert] calls on the new table (each returning or
    raising), no two stored rows share a primary-key tuple; and a further
    insert whose key tuple is that of a stored row replaces that row where
    it sits: the row list keeps its length. *)
Theorem C1_primary_key_uniqueness
    (name : string) (columns : gmap string Column)
    (db_map : gmap string string)
    (calls : list (gmap string value * bool)) :
  _primary_key_names (Table_init name columns db_map) ≠ ∅ →
  let t := run_inserts calls (Table_init name columns db_map) in
  pk_unique t
  ∧ ∀ values r t',
      r ∈ _entries t →
      pk_tuple (pk_names t) r = pk_tuple (pk_names t) (insert_entry t values) →
      Table_insert values false t = (Ok tt, t') →
      ∃ idx, _entries t !! idx = Some r
             ∧ _entries t' = <[idx := insert_entry t values]> (_entries t)
             ∧ length (_entries t') = length (_entries t).
Proof.
  intros _ t.
  assert (Hu : pk_unique t).
  { apply run_inserts_pk_unique. unfold pk_unique. simpl. constructor. }
  split; [done|].
  intros values r t' Hr Htup Hins.
  pose proof (Table_insert_outcome t values false) as Hout.
  rewrite Hins in Hout.
  inversion Hout as [|idx r' _ Hi Hr' Heq|Hn Heq]; subst.
  - exists idx. split_and!.
    + apply list_elem_of_lookup in Hr as [j Hj].
      assert (j = idx) as ->; [|done].
      eapply (NoDup_lookup _ _ _ (pk_tuple (pk_names t) r) Hu);
        rewrite list_lookup_fmap.
      * by rewrite Hj.
      * rewrite Hi. simpl. congruence.
    + done.
    + simpl. by rewrite length_insert.
  - by apply Hn in Hr.
Qed.

Lemma C1_witness :
  pk_unique
    (run_inserts [(user_values "user1" 390, false);
                  (user_values "user1" 390, false);
                  (user_values "user2" 800, true)] user_table).
Proof.
  refine (proj1 (C1_primary_key_uniqueness "user_fake" user_columns ∅ _ _)).
  apply (bool_decide_unpack _). vm_compute. exact I.
Defined.

(* ===================================================================== *)
(** ** C10: [add_table] on a name that exists *)
(* ===================================================================== *)

(** C10. [Keyspace.add_table] with a name the keyspace already holds
    returns (it is a total function: nothing is raised) and puts a newly
    built table under that name: the table that was there, with all its
    rows, is gone; every other table is kept. *)
Theorem C10_add_table_replaces_silently
    (ks : Keyspace) (name : string) (old : Table)
    (fields : gmap string Column) (db_map : gmap string string) :
  _tables ks !! name = Some old →
  _tables (add_table name fields db_map ks) !! name
    = Some (Table_init name fields db_map)
  ∧ _entries (Table_init name fields db_map) = []
  ∧ Table_find ∅ None [] (Table_init name fields db_map) = Ok []
  ∧ ∀ other, other ≠ name →
      _tables (add_table name fields db_map ks) !! other
        = _tables ks !! other.
Proof.
  intros _. split_and!.
  - unfold add_table. simpl. apply lookup_insert_eq.
  - done.
  - done.
  - intros other Hne. unfold add_table. simpl. by apply lookup_insert_ne.
Qed.

Lemma C10_witness :
  _tables (add_table "user_fake" user_columns ∅ fake_keyspace) !! "user_fake"
    = Some (Table_init "user_fake" user_columns ∅)
  ∧ _entries (Table_init "user_fake" user_columns ∅) = []
  ∧ Table_find ∅ None [] (Table_init "user_fake" user_columns ∅) = Ok []
  ∧ ∀ other, other ≠ "user_fake" →
      _tables (add_table "user_fake" user_columns ∅ fake_keyspace) !! other
        = _tables fake_keyspace !! other.
Proof.
  apply (C10_add_table_replaces_silently fake_keyspace "user_fake"
           (Table_insert (user_values "user1" 390) false user_table).2).
  vm_compute. reflexivity.
Defined.

(* ===================================================================== *)
(** ** C4: [find] and its limit *)
(* ===================================================================== *)

(** With no filter, [_get_indices_by_kwargs] returns every index before it
    looks at [limit]. *)
Lemma indices_of_find_no_filter (limit : option Z) (t : Table) :
  indices_of_find limit ∅ t = Ok (seq 0 (length (_entries t))).
Proof.
  unfold indices_of_find, _get_indices_by_kwargs.
  rewrite lookup_empty. by repeat case_decide.
Qed.

(** C4, at the input where it fails: the table holds two rows, the filter
    is empty and the limit is 1; [find] returns both rows. *)
Theorem C4_find_no_filter_ignores_limit :
  length (_entries two_users) = 2%nat
  ∧ Table_find ∅ (Some 1) ["username"] two_users
      = Ok [ {[ "username" := VStr "user1" ]};
             {[ "username" := VStr "user2" ]} ].
Proof. split; vm_compute; reflexivity. Qed.

(** With a filter the limit is kept: a scan that has selected fewer than
    [n] rows never returns more than [n]. *)
Lemma indices_loop_bound (n : Z) kwargs es i0 acc :
  (Z.of_nat (length acc) < n)%Z →
  (Z.of_nat (length (indices_loop (VInt n) kwargs es i0 acc)) ≤ n)%Z.
Proof.
  revert i0 acc. induction es as [|e es IH]; intros i0 acc Hacc; simpl; [lia|].
  destruct (row_matches kwargs e).
  - case_bool_decide as Hn.
    + rewrite <- Hn. lia.
    + apply IH. rewrite length_app in *. simpl in *. lia.
  - case_bool_decide as Hn; [lia|]. by apply IH.
Qed.

Lemma Table_find_limit_bound filters (n : Z) select t rows :
  filters ≠ ∅ → (0 < n)%Z →
  Table_find filters (Some n) select t = Ok rows →
  (Z.of_nat (length rows) ≤ n)%Z.
Proof.
  intros Hf Hn. unfold Table_find, indices_of_find, _get_indices_by_kwargs.
  case_decide; [done|]. rewrite decide_False by done. simpl.
  intros Hm%res_mapM_length. rewrite Hm. by apply indices_loop_bound.
Qed.

(* ===================================================================== *)
(** ** C6: [flush] *)
(* ===================================================================== *)

(** [flush] leaves every keyspace, and so every table and row, as it was. *)
Lemma flush_keeps_keyspaces (st : Registry) :
  module_keyspaces (flush st) = module_keyspaces st.
Proof. done. Qed.

(** C6, at the input where it fails: one row was inserted through the
    executor; after [flush ()] a select still returns it. *)
Theorem C6_flush_keeps_table_rows :
  (ModelQuerySet_execute fake_model false select_names (flush one_user)).1
    = Ok (RRows [ {[ "username" := ERaw (VStr "user1");
                     "company" := ERaw (VInt 390) ]} ])
  ∧ module_keyspaces (flush one_user) = module_keyspaces one_user.
Proof. split; vm_compute; reflexivity. Qed.

(* ===================================================================== *)
(** ** C9: a delete statement with field targets *)
(* ===================================================================== *)

Lemma for_each_preserves {S A} (P : S → Prop) (l : list A)
    (body : A → M S unit) :
  (∀ a s, P s → P (body a s).2) →
  ∀ s, P s → P (for_each l body s).2.
Proof.
  intros Hbody. induction l as [|a l IH]; intros s Hs; simpl; [done|].
  unfold bind. pose proof (Hbody a s Hs) as Ha.
  destruct (body a s) as [[[]|e] s']; simpl in *; [by apply IH|done].
Qed.

Lemma null_field_keeps_keyspaces tbl idx stmt_field st :
  module_keyspaces (null_field tbl idx stmt_field st).2 = module_keyspaces st.
Proof.
  unfold null_field. destruct (module_entries st !! tbl) as [rows|]; [|done].
  by destruct (rows !! idx).
Qed.

(** Whatever the filters and the fields, a delete statement with field
    targets leaves every table as it was: the rows it rewrites are those of
    the module-level [_entries]. *)
Lemma delete_fields_keeps_tables model tbl where_clauses f fields ie st :
  module_keyspaces
    (DMLQuery_execute model false
       (DeleteStatement tbl where_clauses (f :: fields) ie) st).2
  = module_keyspaces st.
Proof.
  unfold DMLQuery_execute, bind, lift, get_state, ret.
  destruct (_get_ks_table_name _ _) as [names|]; [|done].
  destruct (get_keyspace names.1 st) as [ks|]; [|done].
  destruct (get_table names.2 ks) as [t|]; [|done].
  assert (Hfe : ∀ l s,
             module_keyspaces s = module_keyspaces st →
             module_keyspaces
               (for_each l
                  (λ idx, for_each (f :: fields)
                            (λ stmt_field, null_field tbl idx stmt_field)) s).2
             = module_keyspaces st).
  { intros l.
    apply (for_each_preserves (λ s, module_keyspaces s = module_keyspaces st)).
    intros idx s Hs.
    apply (for_each_preserves (λ s, module_keyspaces s = module_keyspaces st));
      [|done].
    intros c s0 Hs0. by rewrite null_field_keeps_keyspaces. }
  specialize (Hfe (lookup_items tbl where_clauses st) st eq_refl).
  destruct (for_each _ _ st) as [[[]|e] s']; simpl in *; done.
Qed.

(** C9, at the input where it fails: the table holds the row of [user1]
    with [created_at = 1000]; the delete statement names that row and the
    field [created_at]; after it the registry is what it was and the row
    still reads [created_at = 1000] (normalized: the float 1.0), not
    [None]. *)
Theorem C9_delete_fields_leaves_row :
  DMLQuery_execute fake_model false null_created_at one_user
    = (Ok (RRows []), one_user)
  ∧ (on_table "fake" "user_fake"
       (λ t, (Table_find {[ "username" := VStr "user1" ]} None ["created_at"] t,
              t))
       one_user).1
    = Ok [ {[ "created_at" := VInt 1000 ]} ]
  ∧ (ModelQuerySet_execute fake_model false select_created_at
       (DMLQuery_execute fake_model false null_created_at one_user).2).1
    = Ok (RRows [ {[ "created_at" := EFloat 1%float ]} ]).
Proof. split_and!; vm_compute; reflexivity. Qed.

(* ===================================================================== *)
(** ** C8: a table without primary-key columns *)
(* ===================================================================== *)

Lemma run_inserts_pk_names calls t :
  pk_names (run_inserts calls t) = pk_names t.
Proof.
  revert t. induction calls as [|c calls IH]; intros t; simpl; [done|].
  by rewrite IH, Table_insert_pk_names.
Qed.

(** Without key columns every row has the empty key tuple, so a table
    grown by inserts holds at most one row. *)
Lemma zero_pk_at_most_one_row t :
  pk_names t = [] → pk_unique t → (length (_entries t) ≤ 1)%nat.
Proof.
  unfold pk_unique. intros ->. destruct (_entries t) as [|r [|r' es]];
    simpl; [lia|lia|].
  intros Hn. apply NoDup_cons in Hn as [Hn _]. exfalso. apply Hn. left.
Qed.

Lemma zero_pk_insert t values :
  pk_names t = [] →
  Table_insert values false t
  = (Ok tt,
     set_entries (set_next_oid t (_next_oid t + size (_column_names t)))
       (match _entries t with
        | [] => [insert_entry t values]
        | _ :: rest => insert_entry t values :: rest
        end)).
Proof.
  intros Hn. unfold Table_insert, pk_missing, _find_by_pk.
  fold (pk_names t). rewrite Hn. simpl.
  by destruct (_entries t).
Qed.

Lemma zero_pk_insert_if_not_exists t values r es :
  pk_names t = [] → _entries t = r :: es →
  Table_insert values true t = (Raise LWTException, t).
Proof.
  intros Hn He. unfold Table_insert, pk_missing, _find_by_pk.
  fold (pk_names t). rewrite Hn, He. done.
Qed.

(** C8, as stated, fails: two inserts into the empty table [log_table],
    which has no key column, both return, and the table holds one row. *)
Lemma C8_counterexample :
  _primary_key_names log_table = ∅
  ∧ (Table_insert {[ "line" := VStr "a" ]} false log_table).1 = Ok tt
  ∧ (Table_insert {[ "line" := VStr "b" ]} false
       (Table_insert {[ "line" := VStr "a" ]} false log_table).2).1 = Ok tt
  ∧ length (_entries
              (run_inserts [({[ "line" := VStr "a" ]}, false);
                            ({[ "line" := VStr "b" ]}, false)] log_table))
    ≠ 2%nat.
Proof. split_and!; vm_compute; done. Qed.

(** C8, amended. On a table without primary-key columns, [_find_by_pk]
    matches the first stored row whatever it holds: after any sequence of
    inserts into the new table, an insert without [if_not_exists] returns
    and leaves exactly one row, the one it built (it is appended to the
    empty table and put in place of the row at index 0 otherwise), and an
    insert with [if_not_exists] into the table once it holds a row raises
    the conflict. *)
Theorem C8_zero_pk_keeps_one_row
    (name : string) (columns : gmap string Column)
    (db_map : gmap string string)
    (calls : list (gmap string value * bool)) (values : gmap string value) :
  _primary_key_names (Table_init name columns db_map) = ∅ →
  let t := run_inserts calls (Table_init name columns db_map) in
  (Table_insert values false t).1 = Ok tt
  ∧ _entries (Table_insert values false t).2 = [insert_entry t values]
  ∧ (_entries t ≠ [] →
     Table_insert values true t = (Raise LWTException, t)).
Proof.
  intros Hpk t.
  assert (Hn : pk_names t = []).
  { unfold t. rewrite run_inserts_pk_names. unfold pk_names.
    rewrite Hpk. apply elements_empty. }
  assert (Hlen : (length (_entries t) ≤ 1)%nat).
  { apply zero_pk_at_most_one_row; [done|].
    apply run_inserts_pk_unique. unfold pk_unique. simpl. constructor. }
  rewrite zero_pk_insert by done. simpl. split_and!; [done| |].
  - destruct (_entries t) as [|r [|r' es]]; simpl in *; [done|done|lia].
  - intros Hne. destruct (_entries t) as [|r es] eqn:He; [done|].
    by eapply zero_pk_insert_if_not_exists.
Qed.

Lemma C8_witness :
  (Table_insert {[ "line" := VStr "b" ]} false
     (run_inserts [({[ "line" := VStr "a" ]}, false)] log_table)).1 = Ok tt
  ∧ _entries (Table_insert {[ "line" := VStr "b" ]} false
                (run_inserts [({[ "line" := VStr "a" ]}, false)] log_table)).2
    = [insert_entry (run_inserts [({[ "line" := VStr "a" ]}, false)] log_table)
                    {[ "line" := VStr "b" ]}]
  ∧ (_entries (run_inserts [({[ "line" := VStr "a" ]}, false)] log_table) ≠ [] →
     Table_insert {[ "line" := VStr "b" ]} true
       (run_inserts [({[ "line" := VStr "a" ]}, false)] log_table)
     = (Raise LWTException,
        run_inserts [({[ "line" := VStr "a" ]}, false)] log_table)).
Proof.
  apply (C8_zero_pk_keeps_one_row "log" log_columns ∅
           [({[ "line" := VStr "a" ]}, false)] {[ "line" := VStr "b" ]}).
  vm_compute. reflexivity.
Defined.

(* ===================================================================== *)
(** ** C2: when the lightweight-transaction conflict is raised *)
(* ===================================================================== *)

Section no_lwt.





















End no_lwt.

Section selection.




Lemma pk_present_of_not_missing t entry k :
  pk_missing t entry = false → k ∈ pk_names t → is_Some (entry !! k).
Proof.
  unfold pk_missing. fold (pk_names t). intros Hm Hk.
  destruct (entry !! k) as [c|] eqn:Hc; [by eexists|]. exfalso.
  assert (existsb
            (λ pk_field,
               bool_decide (default VNone (val <$> entry !! pk_field) = VNone))
            (pk_names t) = true) as Ht; [|congruence].
  apply existsb_exists. exists k. split; [by apply list_elem_of_In|].
  rewrite Hc. by apply bool_decide_eq_true.
Qed.

Lemma res_mapM_key_vals_total (names : list string) (r : gmap string cell) :
  (∀ k, k ∈ names → is_Some (r !! k)) →
  ∃ pks, res_mapM (λ pk_name, try! c := getitem r pk_name in Ok (val c)) names
         = Ok pks.
Proof.
  induction names as [|k names IH]; intros Hall; simpl; [by eexists|].
  destruct (Hall k) as [c Hc]; [left|].
  destruct IH as [pks Hpks]; [intros k' ?; apply Hall; by right|].
  unfold getitem at 1. rewrite Hc. simpl. rewrite Hpks. simpl. by eexists.
Qed.

Lemma pk_match_total (r : gmap string cell) names pks :
  (∀ k, k ∈ names → is_Some (r !! k)) →
  ∃ b, pk_match names r pks = Ok b.
Proof.
  unfold pk_match. generalize true. revert pks.
  induction names as [|k names IH]; intros [|v pks] b Hall; simpl;
    try by eexists.
  destruct (Hall k) as [c Hc]; [left|].
  unfold getitem at 1. rewrite Hc. simpl.
  apply IH. intros k' ?. apply Hall. by right.
Qed.

Lemma find_by_pk_loop_complete names pks es i0 :
  length names = length pks →
  (∀ r k, r ∈ es → k ∈ names → is_Some (r !! k)) →
  (∃ r, r ∈ es ∧ pk_tuple names r = Some <$> pks) →
  ∃ idx, find_by_pk_loop names pks es i0 = Ok (Some idx).
Proof.
  intros Hlen. revert i0. induction es as [|e es IH]; intros i0 Hkeys Hex.
  - destruct Hex as (r & Hr & _). by apply elem_of_nil in Hr.
  - simpl. destruct (pk_match_total e names pks) as [b Hb].
    { intros k Hk. apply (Hkeys e k); [left|done]. }
    rewrite Hb. simpl. destruct b; [by eexists|].
    apply IH.
    + intros r k Hr Hk. apply Hkeys; [by right|done].
    + destruct Hex as (r & [->|Hr]%elem_of_cons & Ht); [|by exists r].
      apply pk_match_spec in Hb; [|done].
      symmetry in Hb. by apply bool_decide_eq_false in Hb.
Qed.

Lemma find_by_pk_loop_total names pks es i0 :
  (∀ r k, r ∈ es → k ∈ names → is_Some (r !! k)) →
  ∃ o, find_by_pk_loop names pks es i0 = Ok o.
Proof.
  revert i0. induction es as [|e es IH]; intros i0 Hkeys; simpl;
    [by eexists|].
  destruct (pk_match_total e names pks) as [b Hb].
  { intros k Hk. apply (Hkeys e k); [left|done]. }
  rewrite Hb. simpl. destruct b; [by eexists|].
  apply IH. intros r k Hr Hk. apply Hkeys; [by right|done].
Qed.


End selection.





Lemma dom_insert_entry t values :
  dom (insert_entry t values) = _column_names t.
Proof.
  apply set_eq. intros k. rewrite elem_of_dom. unfold insert_entry.
  rewrite lookup_dict_of_keys. case_decide; [|by split; [intros []|]].
  split; [done|]. by eexists.
Qed.

(** Inserts keep the rows keyed by the table's columns. *)
Lemma Table_insert_rows_keyed t values ine :
  rows_keyed t → rows_keyed (Table_insert values ine t).2.
Proof.
  intros Hk. destruct (Table_insert_outcome t values ine) as [e|idx r _ Hi Hr|Hn];
    [done| |]; intros r' Hr'; simpl in *.
  - apply list_elem_of_lookup in Hr' as [j Hj].
    apply list_lookup_insert_Some in Hj as [(_ & <- & _)|[_ Hj]].
    + apply dom_insert_entry.
    + apply Hk. by eapply list_elem_of_lookup_2.
  - apply elem_of_app in Hr' as [Hr'|Hr']; [by apply Hk|].
    apply list_elem_of_singleton in Hr' as ->. apply dom_insert_entry.
Qed.

Lemma run_inserts_rows_keyed calls t :
  rows_keyed t → rows_keyed (run_inserts calls t).
Proof.
  revert t. induction calls as [|c calls IH]; intros t Hk; simpl; [done|].
  apply IH. by apply Table_insert_rows_keyed.
Qed.



(* ===================================================================== *)
(** ** C3: the second insert replaces the row wholesale *)
(* ===================================================================== *)

(** The default of a column follows the class of the column the alias
    map resolves its name to. *)
Lemma default_value_by_class t c col :
  _columns t !! default c (_db_map t !! c) = Some col →
  _default_value t c
  = match col_type col with
    | KList => VList []
    | KSet => VSet ∅
    | KMap => VMap ∅
    | _ => VNone
    end.
Proof. unfold _default_value. intros ->. simpl. by destruct (col_type col). Qed.

Lemma Table_insert_stored t values ine t' :
  Table_insert values ine t = (Ok tt, t') →
  ∃ idx, _entries t' !! idx = Some (insert_entry t values).
Proof.
  intros Hins. pose proof (Table_insert_outcome t values ine) as Hout.
  rewrite Hins in Hout. inversion Hout as [|idx r _ Hi Hr Heq|Hn Heq]; subst.
  - exists idx. simpl. apply list_lookup_insert_eq. by eapply lookup_lt_Some.
  - exists (length (_entries t)). simpl.
    rewrite lookup_app_r by lia. by rewrite Nat.sub_diag.
Qed.

Lemma Table_insert_same_schema t values ine :
  _column_names (Table_insert values ine t).2 = _column_names t
  ∧ _columns (Table_insert values ine t).2 = _columns t
  ∧ _db_map (Table_insert values ine t).2 = _db_map t.
Proof. by destruct (Table_insert_outcome t values ine). Qed.

(** C3. On a table grown by inserts, after [insert values1] and
    then [insert values2] with the same primary-key tuple, both without
    [if_not_exists]: the second call puts its row in the place of the row
    the first call stored, the row list keeps its length, and in the stored
    row every column that [values2] omits holds the column's default
    whatever [values1] gave it: the empty list, set or dict for a [List],
    [Set] or [Map] column and [None] for every other class. *)
Theorem C3_second_insert_replaces_wholesale
    (name : string) (columns : gmap string Column)
    (db_map : gmap string string)
    (calls : list (gmap string value * bool))
    (values1 values2 : gmap string value) (t1 t2 : Table) :
  let t := run_inserts calls (Table_init name columns db_map) in
  Table_insert values1 false t = (Ok tt, t1) →
  Table_insert values2 false t1 = (Ok tt, t2) →
  pk_tuple (pk_names t) (insert_entry t values1)
    = pk_tuple (pk_names t) (insert_entry t1 values2) →
  ∃ idx,
    _entries t1 !! idx = Some (insert_entry t values1)
    ∧ _entries t2 = <[idx := insert_entry t1 values2]> (_entries t1)
    ∧ length (_entries t2) = length (_entries t1)
    ∧ ∀ c, c ∈ _column_names t → values2 !! c = None →
        val <$> insert_entry t1 values2 !! c = Some (_default_value t c)
        ∧ ∀ col, _columns t !! default c (_db_map t !! c) = Some col →
            _default_value t c
            = match col_type col with
              | KList => VList []
              | KSet => VSet ∅
              | KMap => VMap ∅
              | _ => VNone
              end.
Proof.
  intros t Hins1 Hins2 Hsame.
  assert (Hu1 : pk_unique t1).
  { replace t1 with (Table_insert values1 false t).2 by by rewrite Hins1.
    apply Table_insert_pk_unique, run_inserts_pk_unique.
    unfold pk_unique. simpl. constructor. }
  assert (Hn1 : pk_names t1 = pk_names t).
  { replace t1 with (Table_insert values1 false t).2 by by rewrite Hins1.
    apply Table_insert_pk_names. }
  destruct (Table_insert_same_schema t values1 false) as (Hc1 & Hcol1 & Hdb1).
  rewrite Hins1 in Hc1, Hcol1, Hdb1. simpl in Hc1, Hcol1, Hdb1.
  destruct (Table_insert_stored _ _ _ _ Hins1) as [i Hi].
  pose proof (Table_insert_outcome t1 values2 false) as Hout.
  rewrite Hins2 in Hout.
  inversion Hout as [|idx r _ Hidx Hr Heq|Hn Heq]; subst t2.
  - assert (idx = i) as ->.
    { eapply (NoDup_lookup _ _ _
                (pk_tuple (pk_names t1) (insert_entry t1 values2)) Hu1);
        rewrite list_lookup_fmap.
      - rewrite Hidx. simpl. by rewrite Hr.
      - rewrite Hi. simpl. by rewrite Hn1, Hsame. }
    exists i. split_and!; [done|done|by simpl; rewrite length_insert|].
    intros c Hc Hv. split; [|apply default_value_by_class].
    rewrite lookup_insert_entry, Hc1, decide_True, Hv by done. simpl.
    unfold _default_value. by rewrite Hcol1, Hdb1.
  - exfalso. apply (Hn (insert_entry t values1)).
    + by eapply list_elem_of_lookup_2.
    + by rewrite Hn1, Hsame.
Qed.

Lemma C3_witness :
  ∃ idx,
    _entries (Table_insert (user_values "user1" 390) false user_table).2 !! idx
      = Some (insert_entry user_table (user_values "user1" 390))
    ∧ val <$> insert_entry
                (Table_insert (user_values "user1" 390) false user_table).2
                user1_bare !! "skills"
      = Some (VList []).
Proof.
  destruct (C3_second_insert_replaces_wholesale "user_fake" user_columns ∅ []
              (user_values "user1" 390) user1_bare
              (Table_insert (user_values "user1" 390) false user_table).2
              (Table_insert user1_bare false
                 (Table_insert (user_values "user1" 390) false user_table).2).2)
    as (idx & H1 & _ & _ & H4).
  - vm_compute. reflexivity.
  - vm_compute. reflexivity.
  - vm_compute. reflexivity.
  - exists idx. split; [exact H1|].
    destruct (H4 "skills") as [Hv Hd].
    + apply (bool_decide_unpack _). vm_compute. exact I.
    + vm_compute. reflexivity.
    + rewrite Hv, (Hd (mkColumn "skills" false KList [KText])).
      * reflexivity.
      * vm_compute. reflexivity.
Defined.

(* ===================================================================== *)
(** ** C5: the collection operators of [_assign_value] *)
(* ===================================================================== *)

Section operators.

Lemma load_cell_ok t idx column r c :
  _entries t !! idx = Some r → r !! column = Some c →
  load_cell idx column t = (Ok c, t).
Proof.
  intros Hr Hc. unfold load_cell, getidx, getitem. rewrite Hr. simpl.
  by rewrite Hc.
Qed.

Lemma rewrite_obj_lookup o v (r : gmap string cell) column c :
  r !! column = Some c → oid c = o →
  rewrite_obj o v r !! column = Some (Cell o v).
Proof.
  intros Hc Ho. unfold rewrite_obj. rewrite lookup_fmap, Hc. simpl.
  by rewrite decide_True.
Qed.


Lemma method_call_spec op t idx column arg r c v :
  _entries t !! idx = Some r → r !! column = Some c →
  op (val c) (val arg) = Ok v →
  method_call op idx column arg t
  = (Ok tt, set_entries t (rewrite_obj (oid c) v <$> _entries t)).
Proof.
  intros Hr Hc Hop. unfold method_call, bind.
  rewrite (load_cell_ok _ _ _ _ _ Hr Hc). unfold lift. by rewrite Hop.
Qed.


Lemma rebuilt_spec op t idx column arg r c v :
  _entries t !! idx = Some r → r !! column = Some c →
  op (val c) (val arg) = Ok v →
  rebuilt op idx column arg t
  = (Ok tt,
     set_entries (set_next_oid t (S (_next_oid t)))
       (<[idx := <[column := Cell (_next_oid t) v]> r]> (_entries t))).
Proof.
  intros Hr Hc Hop. unfold rebuilt, bind.
  rewrite (load_cell_ok _ _ _ _ _ Hr Hc). unfold lift. rewrite Hop.
  unfold alloc, store_cell. simpl. by rewrite Hr.
Qed.

Lemma cell_val_rewritten t idx column r c v :
  _entries t !! idx = Some r → r !! column = Some c →
  cell_val (set_entries t (rewrite_obj (oid c) v <$> _entries t)) idx column
  = Some v.
Proof.
  intros Hr Hc. unfold cell_val. simpl. rewrite list_lookup_fmap, Hr. simpl.
  by rewrite (rewrite_obj_lookup _ _ _ _ c).
Qed.





End operators.

(** [update] with one assignment, on filters that select the one row
    [idx], is one call of [_assign_value] on that row with the argument
    object of the call. *)
Lemma Table_update_one_row t filters column operator v ie idx :
  indices_of_filters filters t = [idx] →
  column ∈ _column_names t →
  Table_update filters [(column, operator, v)] ie t
  = _assign_value idx column operator (Cell (_next_oid t + 0) v)
      (set_next_oid t (_next_oid t + 1)).
Proof.
  intros Hi Hc. unfold Table_update. rewrite Hi. simpl.
  rewrite decide_True by done. unfold bind, ret.
  by destruct (_assign_value _ _ _ _ _) as [[[]|e] t'].
Qed.



(** The scenario of the specification, through [update] and [find]:
    insert [{id: 1, tags: []}], append [[x, y]], prepend [[w]]. *)
Example update_append_then_prepend :
  let t1 := (Table_update {[ "id" := VInt 1 ]}
               [("tags", "append", VList [AStr "x"; AStr "y"])] false
               (tagged [1])).2 in
  let t2 := (Table_update {[ "id" := VInt 1 ]}
               [("tags", "prepend", VList [AStr "w"])] false t1).2 in
  Table_find {[ "id" := VInt 1 ]} None ["tags"] t1
    = Ok [ {[ "tags" := VList [AStr "x"; AStr "y"] ]} ]
  ∧ Table_find {[ "id" := VInt 1 ]} None ["tags"] t2
    = Ok [ {[ "tags" := VList [AStr "w"; AStr "x"; AStr "y"] ]} ].
Proof. split; vm_compute; reflexivity. Qed.

(** One [update] that assigns a list to two rows stores one list object
    in both; an [append] to both rows then extends that object twice. *)
Example update_append_on_shared_list :
  let t1 := (Table_update ∅ [("tags", "assign", VList [AStr "p"])] false
               (tagged [1; 2])).2 in
  let t2 := (Table_update ∅ [("tags", "append", VList [AStr "a"])] false
               t1).2 in
  Table_find ∅ None ["tags"] t2
  = Ok [ {[ "tags" := VList [AStr "p"; AStr "a"; AStr "a"] ]};
         {[ "tags" := VList [AStr "p"; AStr "a"; AStr "a"] ]} ].
Proof. vm_compute. reflexivity. Qed.

(* ===================================================================== *)
(** ** C7: the timestamp normalizer *)
(* ===================================================================== *)




(* ===================================================================== *)
(** * Further properties *)
(* ===================================================================== *)

(** ** Which rows a filter selects *)

Section positions.









End positions.

(** ** [find]: which rows, in which order, how many *)










(** ** [delete]: which rows are left *)









(** ** What every mutator keeps *)

Section kept.

Lemma bind_preserves {S A B} (P : S → Prop) (m : M S A) (k : A → M S B) s :
  (∀ s, P s → P (m s).2) → (∀ a s, P s → P (k a s).2) →
  P s → P (bind m k s).2.
Proof.
  intros Hm Hk Hs. unfold bind. specialize (Hm s Hs).
  destruct (m s) as [[a|e] s']; simpl in *; [by apply Hk|done].
Qed.

Lemma update_keeps_refl t : update_keeps t t.
Proof. by repeat split. Qed.

Lemma update_keeps_next_oid t s n :
  update_keeps t s → update_keeps t (set_next_oid s n).
Proof. done. Qed.

Lemma update_keeps_store_cell t idx column c s :
  column ∈ _column_names t →
  update_keeps t s → update_keeps t (store_cell idx column c s).2.
Proof.
  intros Hc (Hs & Hlen & Hk). unfold store_cell.
  destruct (_entries s !! idx) as [r|] eqn:Hr; [|done]. simpl.
  refine (conj Hs (conj _ _)); [by simpl; rewrite length_insert|].
  intros Hkt r' Hr'. simpl in *.
  apply list_elem_of_lookup in Hr' as [j Hj].
  apply list_lookup_insert_Some in Hj as [(_ & <- & _)|[_ Hj]].
  - rewrite dom_insert_L. destruct Hs as (_ & _ & Hcn & _).
    assert (dom r = _column_names s) as Hd.
    { apply (Hk Hkt). by eapply list_elem_of_lookup_2. }
    rewrite Hd, Hcn. apply subseteq_union_1_L.
    by apply singleton_subseteq_l.
  - apply (Hk Hkt). by eapply list_elem_of_lookup_2.
Qed.

Lemma update_keeps_mutate_obj t o v s :
  update_keeps t s → update_keeps t (mutate_obj o v s).2.
Proof.
  intros (Hs & Hlen & Hk). unfold mutate_obj. simpl.
  refine (conj Hs (conj _ _)); [by simpl; rewrite length_fmap|].
  intros Hkt r' Hr'. simpl in *.
  apply list_elem_of_fmap in Hr' as (r & -> & Hr).
  unfold rewrite_obj. rewrite dom_fmap_L. by apply (Hk Hkt).
Qed.

Lemma update_keeps_load_cell t idx column s :
  update_keeps t s → update_keeps t (load_cell idx column s).2.
Proof. done. Qed.

Lemma update_keeps_alloc t v s :
  update_keeps t s → update_keeps t (alloc v s).2.
Proof. done. Qed.

Lemma update_keeps_assign_value t idx column operator arg s :
  column ∈ _column_names t →
  update_keeps t s →
  update_keeps t (_assign_value idx column operator arg s).2.
Proof.
  intros Hc Hs. unfold _assign_value.
  case_decide; [by apply update_keeps_store_cell|].
  apply bind_preserves; [done| |done]. intros s0 s1 Hs1.
  apply bind_preserves; [done| |done]. intros col s2 Hs2.
  repeat match goal with
         | |- update_keeps _ ((if ?b then _ else _) _).2 => destruct b
         end;
    try done; unfold augmented, method_call, rebuilt;
    (apply bind_preserves; [done| |done]); intros stored s3 Hs3;
    (apply bind_preserves; [done| |done]); intros v s4 Hs4;
    try (by apply update_keeps_mutate_obj);
    try (destruct (in_place (val stored));
         [by apply update_keeps_mutate_obj|]);
    (apply bind_preserves; [done| |done]); intros c s5 Hs5;
    by apply update_keeps_store_cell.
Qed.

Lemma Table_update_keeps t filters values ie :
  update_keeps t (Table_update filters values ie t).2.
Proof.
  unfold Table_update.
  destruct (bool_decide _ && ie); [apply update_keeps_refl|].
  apply (for_each_preserves (update_keeps t)).
  - intros idx s Hs. apply (for_each_preserves (update_keeps t)); [|done].
    intros p s' Hs'. case_decide; [|done].
    by apply update_keeps_assign_value.
  - apply update_keeps_next_oid, update_keeps_refl.
Qed.

Lemma foldl_delete_sublist {A} (l : list A) (indices : list nat) :
  foldl (λ es index, delete index es) l indices `sublist_of` l.
Proof.
  revert l. induction indices as [|i indices IH]; intros l; simpl; [done|].
  etrans; [apply IH|]. apply sublist_delete.
Qed.

Lemma Table_delete_rows_keyed t filters ie :
  rows_keyed t → rows_keyed (Table_delete filters ie t).2.
Proof.
  intros Hk. unfold Table_delete. case_decide.
  - simpl. by intros r ?%elem_of_nil.
  - destruct (bool_decide _ && ie); [done|]. simpl.
    intros r Hr. apply Hk. simpl in Hr.
    eapply elem_of_sublist; [done|apply foldl_delete_sublist].
Qed.

Lemma Table_delete_same_schema t filters ie :
  same_schema t (Table_delete filters ie t).2.
Proof.
  unfold Table_delete. case_decide; [done|].
  by destruct (bool_decide _ && ie).
Qed.

Lemma Table_delete_length t filters ie :
  (length (_entries (Table_delete filters ie t).2) ≤ length (_entries t))%nat.
Proof.
  unfold Table_delete. case_decide; [simpl; lia|].
  destruct (bool_decide _ && ie); [done|]. simpl.
  apply sublist_length, foldl_delete_sublist.
Qed.

Lemma run_call_rows_keyed c t : rows_keyed t → rows_keyed (run_call c t).2.
Proof.
  intros Hk. destruct c as [values ine|filters values ie|filters ie]; simpl.
  - by apply Table_insert_rows_keyed.
  - by apply Table_update_keeps.
  - by apply Table_delete_rows_keyed.
Qed.

Lemma run_call_same_schema c t : same_schema t (run_call c t).2.
Proof.
  destruct c as [values ine|filters values ie|filters ie]; simpl.
  - by destruct (Table_insert_outcome t values ine).
  - apply Table_update_keeps.
  - apply Table_delete_same_schema.
Qed.

End kept.

(** X5. Whatever calls of [insert], [update] and [delete] a table has
    gone through since it was built, returning or raising, it has the
    schema it was built with and every stored row has exactly the
    table's columns as keys. *)
Theorem calls_keep_schema_and_keys
    (name : string) (columns : gmap string Column)
    (db_map : gmap string string) (calls : list table_call) :
  same_schema (Table_init name columns db_map)
              (run_calls calls (Table_init name columns db_map))
  ∧ rows_keyed (run_calls calls (Table_init name columns db_map)).
Proof.
  assert (∀ t0 t, same_schema t0 t ∧ rows_keyed t →
            same_schema t0 (run_calls calls t) ∧ rows_keyed (run_calls calls t))
    as H.
  { intros t0. induction calls as [|c calls IH]; intros t [Hs Hk]; simpl;
      [done|].
    apply IH. split; [|by apply run_call_rows_keyed].
    destruct (run_call_same_schema c t) as (?&?&?&?&?).
    destruct Hs as (?&?&?&?&?). repeat split; congruence. }
  apply H. split; [by repeat split|]. by intros r ?%elem_of_nil.
Qed.

(** X6. [update] never changes how many rows the table holds, whether it
    returns or raises, and [delete] never adds a row. *)
Theorem update_keeps_row_count
    (filters : gmap string value) (values : list (string * string * value))
    (flag : bool) (t : Table) :
  length (_entries (Table_update filters values flag t).2)
    = length (_entries t)
  ∧ (length (_entries (Table_delete filters flag t).2)
       ≤ length (_entries t))%nat.
Proof. split; [apply Table_update_keeps|apply Table_delete_length]. Qed.

(** ** [update]: what it writes *)





Lemma for_each_cons {S A} (a : A) (l : list A) (body : A → M S unit) s :
  for_each (a :: l) body s
  = match body a s with
    | (Ok _, s') => for_each l body s'
    | (Raise e, s') => (Raise e, s')
    end.
Proof. done. Qed.





(** ** [insert]: when it raises, when it returns *)

Section insert_errors.

Lemma res_mapM_getitem_raises (entry : gmap string cell) names e :
  res_mapM (λ pk_name, try! c := getitem entry pk_name in Ok (val c)) names
    = Raise e → e = KeyError.
Proof.
  induction names as [|k names IH]; simpl; [done|].
  unfold getitem at 1. destruct (entry !! k); simpl; [|by intros [= <-]].
  destruct (res_mapM _ names); simpl; [done|]. intros [= <-]. by apply IH.
Qed.

Lemma pk_match_raises names (r : gmap string cell) pks e :
  pk_match names r pks = Raise e → e = KeyError.
Proof.
  unfold pk_match. generalize true. revert pks.
  induction names as [|k names IH]; intros [|v pks] b; simpl; try done.
  unfold getitem at 1. destruct (r !! k); simpl; [apply IH|by intros [= <-]].
Qed.

Lemma find_by_pk_loop_raises names pks es i0 e :
  find_by_pk_loop names pks es i0 = Raise e → e = KeyError.
Proof.
  revert i0. induction es as [|r es IH]; intros i0; simpl; [done|].
  destruct (pk_match names r pks) as [[]|e'] eqn:Hm; simpl; [done|apply IH|].
  intros [= <-]. by eapply pk_match_raises.
Qed.

Lemma pk_missing_iff t values :
  pk_missing t (insert_entry t values) = true
  ↔ ∃ k, k ∈ _primary_key_names t
         ∧ (k ∉ _column_names t
            ∨ default (_default_value t k) (values !! k) = VNone).
Proof.
  unfold pk_missing. rewrite existsb_exists. split.
  - intros (k & Hk%list_elem_of_In%elem_of_elements & Hv).
    apply bool_decide_eq_true in Hv. exists k. split; [done|].
    rewrite lookup_insert_entry in Hv. case_decide; [by right|by left].
  - intros (k & Hk & Hv). exists k.
    split; [by apply list_elem_of_In, elem_of_elements|].
    apply bool_decide_eq_true. rewrite lookup_insert_entry.
    case_decide; [|done]. by destruct Hv.
Qed.

End insert_errors.

Lemma Table_insert_missing_key
    (values : gmap string value) (if_not_exists : bool) (t : Table) :
  ((Table_insert values if_not_exists t).1 = Raise CQLEngineException
   ↔ ∃ k, k ∈ _primary_key_names t
          ∧ (k ∉ _column_names t
             ∨ default (_default_value t k) (values !! k) = VNone))
  ∧ ((Table_insert values if_not_exists t).1 = Raise CQLEngineException
     → (Table_insert values if_not_exists t).2 = t).
Proof.
  split.
  - rewrite <- pk_missing_iff. unfold Table_insert.
    destruct (pk_missing t (insert_entry t values)); [by split|].
    split; [|done].
    destruct (res_mapM _ _) as [pks|e] eqn:Hp.
    + destruct (_find_by_pk t pks) as [[idx|]|e] eqn:Hf; simpl.
      * by destruct if_not_exists.
      * done.
      * intros [= ->]. by apply find_by_pk_loop_raises in Hf.
    + simpl. intros [= ->]. by apply res_mapM_getitem_raises in Hp.
  - intros Hr.
    destruct (Table_insert_outcome t values if_not_exists); simpl in *; done.
Qed.

(** X9. [insert] raises "Primary key was not provided" exactly when some
    primary-key name is no column of the table, or is a column for which
    [values] gives [None] or gives nothing while the column's default is
    [None]; the table is then as it was. *)
Theorem insert_raises_missing_key
    (values : gmap string value) (if_not_exists : bool) (t : Table) :
  ((Table_insert values if_not_exists t).1 = Raise CQLEngineException
   ↔ ∃ k, k ∈ _primary_key_names t
          ∧ (k ∉ _column_names t
             ∨ default (_default_value t k) (values !! k) = VNone))
  ∧ ((Table_insert values if_not_exists t).1 = Raise CQLEngineException
     → (Table_insert values if_not_exists t).2 = t).
Proof. apply Table_insert_missing_key. Qed.

(** X10. On a table whose rows have the table's columns, [insert] with a
    complete key and without [if_not_exists] returns; with
    [if_not_exists] it returns or raises the conflict.  No other
    exception comes out of it. *)
Theorem insert_returns_on_complete_key
    (values : gmap string value) (if_not_exists : bool) (t : Table) :
  rows_keyed t →
  pk_missing t (insert_entry t values) = false →
  (Table_insert values if_not_exists t).1 = Ok tt
  ∨ (if_not_exists = true
     ∧ (Table_insert values if_not_exists t).1 = Raise LWTException).
Proof.
  intros Hkeyed Hmiss. unfold Table_insert. rewrite Hmiss.
  assert (Hpres : ∀ k, k ∈ pk_names t → is_Some (insert_entry t values !! k)).
  { intros k. by apply pk_present_of_not_missing. }
  destruct (res_mapM_key_vals_total _ _ Hpres) as [pks Hpks].
  fold (pk_names t). rewrite Hpks.
  destruct (find_by_pk_loop_total (pk_names t) pks (_entries t) 0) as [o Ho].
  { intros r k Hr Hk. apply elem_of_dom. rewrite (Hkeyed r Hr).
    destruct (Hpres k Hk) as [c Hc]. unfold insert_entry in Hc.
    rewrite lookup_dict_of_keys in Hc. by case_decide. }
  unfold _find_by_pk. fold (pk_names t). rewrite Ho.
  destruct o as [idx|]; [|by left].
  destruct if_not_exists; [by right|by left].
Qed.

Lemma insert_returns_on_complete_key_witness :
  (Table_insert (user_values "user3" 900) false two_users).1 = Ok tt
  ∨ (false = true
     ∧ (Table_insert (user_values "user3" 900) false two_users).1
       = Raise LWTException).
Proof.
  apply insert_returns_on_complete_key.
  - apply run_inserts_rows_keyed. by intros r ?%elem_of_nil.
  - vm_compute. reflexivity.
Defined.

Lemma insert_raises_on_absent_key_column t k values ine :
  k ∈ _primary_key_names t → k ∉ _column_names t →
  Table_insert values ine t = (Raise CQLEngineException, t).
Proof.
  intros Hk Hc.
  destruct (Table_insert_missing_key values ine t) as [Hiff Hsame].
  assert ((Table_insert values ine t).1 = Raise CQLEngineException) as Hr.
  { apply Hiff. exists k. split; [done|by left]. }
  specialize (Hsame Hr).
  destruct (Table_insert values ine t) as [o t']. simpl in *. by subst.
Qed.

(** X11. A primary-key column stored under another name than the one the
    model gives it (its [db_field_name] differs, and no column is stored
    under the model name) makes the table unusable: whatever calls the
    table has gone through, every [insert] raises "Primary key was not
    provided", and the table holds no row. *)
Theorem aliased_primary_key_rejects_inserts
    (name : string) (columns : gmap string Column)
    (db_map : gmap string string) (k : string) (col : Column)
    (calls : list table_call) (values : gmap string value)
    (if_not_exists : bool) :
  columns !! k = Some col →
  primary_key col = true →
  (∀ k' col', columns !! k' = Some col' → db_field_name col' ≠ k) →
  Table_insert values if_not_exists
    (run_calls calls (Table_init name columns db_map))
  = (Raise CQLEngineException, run_calls calls (Table_init name columns db_map))
  ∧ _entries (run_calls calls (Table_init name columns db_map)) = [].
Proof.
  intros Hcol Hpk Hdb.
  set (t0 := Table_init name columns db_map).
  assert (Hk : k ∈ _primary_key_names t0).
  { simpl. apply elem_of_dom. exists col. by apply map_lookup_filter_Some. }
  assert (Hc : k ∉ _column_names t0).
  { simpl. intros [i Hi]%elem_of_map_img. rewrite lookup_fmap in Hi.
    destruct (columns !! i) as [ci|] eqn:Hci; simpl in Hi; [|done].
    simplify_eq. by eapply Hdb. }
  assert (∀ t, same_schema t0 t ∧ _entries t = [] →
            same_schema t0 (run_calls calls t) ∧ _entries (run_calls calls t) = [])
    as Hinv.
  { induction calls as [|c calls IH]; intros t [Hs He]; [done|]. simpl.
    apply IH. destruct Hs as (Hn & Hcs & Hcn & Hd & Hp).
    destruct c as [vs ine|fs vs ie|fs ie]; simpl.
    - rewrite (insert_raises_on_absent_key_column t k) by congruence.
      by repeat split.
    - destruct (Table_update_keeps t fs vs ie) as ((?&?&?&?&?) & Hlen & _).
      split; [repeat split; congruence|].
      rewrite He in Hlen. by apply nil_length_inv.
    - destruct (Table_delete_same_schema t fs ie) as (?&?&?&?&?).
      split; [repeat split; congruence|].
      pose proof (Table_delete_length t fs ie) as Hlen. rewrite He in Hlen.
      apply nil_length_inv. simpl in Hlen. lia. }
  destruct (Hinv t0) as [(Hn & Hcs & Hcn & Hd & Hp) He]; [by repeat split|].
  split; [|done].
  apply (insert_raises_on_absent_key_column _ k); congruence.
Qed.

(** The acceptance model with its key column stored as [user_name]. *)
Lemma aliased_primary_key_rejects_inserts_witness :
  Table_insert (user_values "user1" 390) false
    (run_calls [] (Table_init "aliased"
                     {[ "username" := mkColumn "user_name" true KText [] ]} ∅))
  = (Raise CQLEngineException,
     run_calls [] (Table_init "aliased"
                     {[ "username" := mkColumn "user_name" true KText [] ]} ∅))
  ∧ _entries (run_calls [] (Table_init "aliased"
                {[ "username" := mkColumn "user_name" true KText [] ]} ∅))
    = [].
Proof.
  apply (aliased_primary_key_rejects_inserts _ _ _ "username"
           (mkColumn "user_name" true KText [])).
  - vm_compute. reflexivity.
  - reflexivity.
  - intros k' col' Hk'. apply lookup_singleton_Some in Hk' as [_ <-]. done.
Defined.

(** ** Round trips through the primary key *)

Section round_trips.








End round_trips.





(** ** Operators and columns *)

Section operators_and_columns.

Lemma assign_value_map_update t idx column arg col :
  _columns t !! column = Some col → col_type col = KMap →
  _assign_value idx column "update" arg t
  = method_call py_update_kwargs idx column arg t.
Proof.
  intros Hcol Hk. unfold _assign_value, bind, get_state, lift, getitem.
  rewrite decide_False by done. rewrite Hcol. unfold isinstance. by rewrite Hk.
Qed.

Lemma assign_value_map_remove t idx column arg col :
  _columns t !! column = Some col → col_type col = KMap →
  _assign_value idx column "remove" arg t
  = rebuilt py_dict_without idx column arg t.
Proof.
  intros Hcol Hk. unfold _assign_value, bind, get_state, lift, getitem.
  rewrite decide_False by done. rewrite Hcol. unfold isinstance. by rewrite Hk.
Qed.





End operators_and_columns.

(** X14. The operators of a [Map] column.  Row [idx] of a table holds
    the dict [m] under a [Map] column.  [update] with a dict [m'] whose
    keys are all strings returns and the stored dict is [m] overridden
    by [m']; with a key that is no string it raises [TypeError] and the
    table is as it was.  [remove] with a set of keys returns and the
    stored dict is [m] without these keys. *)
Theorem map_operators
    (t : Table) (idx : nat) (column : string) (r : gmap string cell)
    (stored : cell) (col : Column) (m : gmap atom atom) (o : nat) :
  _entries t !! idx = Some r →
  r !! column = Some stored →
  _columns t !! column = Some col →
  col_type col = KMap →
  val stored = VMap m →
  (∀ m', forallb is_str (elements (dom m')) = true →
     let upd := _assign_value idx column "update" (Cell o (VMap m')) in
     (upd t).1 = Ok tt
     ∧ cell_val (upd t).2 idx column = Some (VMap (m' ∪ m)))
  ∧ (∀ m', forallb is_str (elements (dom m')) = false →
       _assign_value idx column "update" (Cell o (VMap m')) t
       = (Raise TypeError, t))
  ∧ (∀ s,
       let rm := _assign_value idx column "remove" (Cell o (VSet s)) in
       (rm t).1 = Ok tt
       ∧ cell_val (rm t).2 idx column
         = Some (VMap (filter (λ kv, kv.1 ∉ s) m))).
Proof.
  intros Hr Hc Hcol Hk Hm. split_and!.
  - intros m' Hstr upd. unfold upd.
    rewrite (assign_value_map_update _ _ _ _ col) by done.
    rewrite (method_call_spec _ _ _ _ _ r stored (VMap (m' ∪ m)));
      [|done|done|by rewrite Hm; simpl; rewrite Hstr].
    split; [done|]. simpl. by apply (cell_val_rewritten _ _ _ r).
  - intros m' Hstr.
    rewrite (assign_value_map_update _ _ _ _ col) by done.
    unfold method_call, bind. rewrite (load_cell_ok _ _ _ _ _ Hr Hc).
    unfold lift. rewrite Hm. simpl. by rewrite Hstr.
  - intros s rm. unfold rm.
    rewrite (assign_value_map_remove _ _ _ _ col) by done.
    rewrite (rebuilt_spec _ _ _ _ _ r stored
               (VMap (filter (λ kv, kv.1 ∉ s) m))); [|done|done|].
    + split; [done|]. unfold cell_val. simpl.
      rewrite list_lookup_insert_eq by by eapply lookup_lt_Some.
      simpl. by rewrite lookup_insert_eq.
    + rewrite Hm. simpl. case_decide as He; [|done].
      subst m. by rewrite map_filter_empty.
Qed.

Lemma map_operators_witness :
  (∀ m', forallb is_str (elements (dom m')) = true →
     let upd := _assign_value 0 "skill_matrix" "update" (Cell 100 (VMap m')) in
     (upd two_users).1 = Ok tt
     ∧ cell_val (upd two_users).2 0 "skill_matrix" = Some (VMap (m' ∪ ∅)))
  ∧ (∀ m', forallb is_str (elements (dom m')) = false →
       _assign_value 0 "skill_matrix" "update" (Cell 100 (VMap m')) two_users
       = (Raise TypeError, two_users))
  ∧ (∀ s,
       let rm := _assign_value 0 "skill_matrix" "remove" (Cell 100 (VSet s)) in
       (rm two_users).1 = Ok tt
       ∧ cell_val (rm two_users).2 0 "skill_matrix"
         = Some (VMap (filter (λ kv, kv.1 ∉ s) ∅))).
Proof.
  apply (map_operators two_users 0 "skill_matrix" user1_row
           (Cell 0 (VMap ∅))
           (mkColumn "skill_matrix" false KMap [KText; KInteger]) ∅ 100).
  - vm_compute. reflexivity.
  - vm_compute. reflexivity.
  - vm_compute. reflexivity.
  - reflexivity.
  - reflexivity.
Defined.





(** ** Statements: clauses and table names *)

Section clauses.

Lemma clauses_to_dict_snoc cs c :
  clauses_to_dict (cs ++ [c])
  = <[field c := value_of c]> (clauses_to_dict cs).
Proof. unfold clauses_to_dict. by rewrite foldl_snoc. Qed.

Lemma string_append_assoc (a b c : string) :
  String.append (String.append a b) c = String.append a (String.append b c).
Proof.
  induction a as [|x a IH]; [done|].
  change (String x (String.append (String.append a b) c)
          = String x (String.append a (String.append b c))).
  by rewrite IH.
Qed.

Lemma string_append_empty (a : string) : String.append a "" = a.
Proof.
  induction a as [|x a IH]; [done|].
  change (String x (String.append a "") = String x a). by rewrite IH.
Qed.

Lemma split_dot_aux_no_dot s cur :
  has_dot s = false → split_dot_aux s cur = [String.append cur s].
Proof.
  revert cur. induction s as [|a s IH]; intros cur Hs; simpl.
  - by rewrite string_append_empty.
  - simpl in Hs. apply orb_false_iff in Hs as [Ha Hs]. rewrite Ha.
    rewrite IH by done. by rewrite string_append_assoc.
Qed.

Lemma split_dot_aux_dot s rest cur :
  has_dot s = false →
  split_dot_aux (String.append s (String "."%char rest)) cur
  = String.append cur s :: split_dot_aux rest "".
Proof.
  revert cur. induction s as [|a s IH]; intros cur Hs; simpl.
  - change (String.append "" (String "."%char rest))
      with (String "."%char rest).
    simpl. by rewrite string_append_empty.
  - change (String.append (String a s) (String "."%char rest))
      with (String a (String.append s (String "."%char rest))).
    simpl in Hs |- *. apply orb_false_iff in Hs as [Ha Hs]. rewrite Ha.
    rewrite IH by done. by rewrite string_append_assoc.
Qed.

Lemma split_dot_aux_length_dot s rest cur :
  (length (split_dot_aux (String.append s (String "."%char rest)) cur)
   > length (split_dot_aux rest ""))%nat.
Proof.
  revert cur. induction s as [|a s IH]; intros cur.
  - change (String.append "" (String "."%char rest))
      with (String "."%char rest).
    simpl. lia.
  - change (String.append (String a s) (String "."%char rest))
      with (String a (String.append s (String "."%char rest))).
    simpl. destruct (Ascii.eqb a "."%char); simpl.
    + specialize (IH ""). lia.
    + apply IH.
Qed.

Lemma split_dot_aux_length s cur : (length (split_dot_aux s cur) > 0)%nat.
Proof.
  revert cur. induction s as [|a s IH]; intros cur; simpl; [lia|].
  destruct (Ascii.eqb a "."%char); simpl; [lia|apply IH].
Qed.

End clauses.

(** X17. Of several clauses on one field, [clauses_to_dict] keeps the
    last: the dict holds, under each field, the value of the last clause
    that names it, and nothing under a field no clause names. *)
Theorem clauses_to_dict_last_wins (cs : list clause) (f : string) :
  clauses_to_dict cs !! f
  = value_of <$> last (filter (λ c, field c = f) cs).
Proof.
  induction cs as [|c cs IH] using rev_ind; [done|].
  rewrite clauses_to_dict_snoc, filter_app, last_app.
  destruct (decide (field c = f)) as [Hf|Hf].
  - rewrite filter_cons_True by done. simpl. rewrite <- Hf.
    by rewrite lookup_insert_eq.
  - rewrite filter_cons_False by done. simpl.
    by rewrite lookup_insert_ne.
Qed.

(** X18. The operator [update] is handed with an assignment is always
    one of the six supported ones: an operation that is missing, empty
    or unknown comes out as [assign], a supported one as itself. *)
Theorem assignments_carry_supported_operators (cs : list clause) :
  Forall2
    (λ c p,
       p.1.1 = field c ∧ p.2 = value_of c
       ∧ p.1.2 ∈ SUPPORTED_OPERATIONS
       ∧ (∀ op, _operation c = Some op → op ∈ SUPPORTED_OPERATIONS →
                p.1.2 = op)
       ∧ ((∀ op, _operation c = Some op → op ∉ SUPPORTED_OPERATIONS) →
          p.1.2 = DEFAULT_OPERATOR))
    cs (assignments_to_list cs).
Proof.
  unfold assignments_to_list. apply Forall2_fmap_r, Forall_Forall2_diag.
  apply Forall_forall. intros c _. simpl. split_and!; try done.
  - unfold _assigment_to_operator. destruct (_operation c) as [op|].
    + destruct (bool_decide (op ≠ "")); simpl;
        [|by apply (bool_decide_unpack _); vm_compute].
      case_bool_decide as Hop; [done|].
      by apply (bool_decide_unpack _); vm_compute.
    + by apply (bool_decide_unpack _); vm_compute.
  - intros op Hop Hin. unfold _assigment_to_operator. rewrite Hop.
    rewrite (bool_decide_eq_true_2 _ Hin), andb_true_r.
    case_bool_decide as Hne; [done|].
    exfalso. subst op. revert Hin.
    change (¬ "" ∈ SUPPORTED_OPERATIONS).
    apply (bool_decide_unpack _). vm_compute. exact I.
  - intros Hno. unfold _assigment_to_operator.
    destruct (_operation c) as [op|]; [|done].
    rewrite (bool_decide_eq_false_2 _ (Hno op eq_refl)).
    by rewrite andb_false_r.
Qed.

(** X19. The keyspace and table a statement names.  A table name
    without a dot is a table of the model's keyspace; [ks.tbl], with
    no dot in [ks] or [tbl], is the table [tbl] of the keyspace [ks];
    a name with two dots or more raises [ValueError]. *)
Theorem ks_table_name_of_statement (model : Model) (stmt : statement) :
  (has_dot (stmt_table stmt) = false →
   _get_ks_table_name model stmt
   = Ok (model_keyspace model, stmt_table stmt))
  ∧ (∀ ks tbl,
       has_dot ks = false → has_dot tbl = false →
       stmt_table stmt = String.append ks (String "."%char tbl) →
       _get_ks_table_name model stmt = Ok (ks, tbl))
  ∧ (∀ a b c,
       stmt_table stmt
       = String.append a (String "."%char
                            (String.append b (String "."%char c))) →
       _get_ks_table_name model stmt = Raise ValueError).
Proof.
  unfold _get_ks_table_name, split_dot. split_and!.
  - intros Hd. by rewrite split_dot_aux_no_dot.
  - intros ks tbl Hks Htbl ->.
    by rewrite split_dot_aux_dot, split_dot_aux_no_dot.
  - intros a b c ->.
    pose proof (split_dot_aux_length_dot a
                  (String.append b (String "."%char c)) "") as H1.
    pose proof (split_dot_aux_length_dot b c "") as H2.
    pose proof (split_dot_aux_length c "") as H3.
    destruct (split_dot_aux _ "") as [|x [|y [|z l]]]; simpl in *;
      [lia|lia|lia|done].
Qed.

Lemma ks_table_name_of_statement_witness :
  _get_ks_table_name fake_model (OtherStatement "user_fake")
  = Ok (model_keyspace fake_model, "user_fake")
  ∧ _get_ks_table_name fake_model (OtherStatement "other.user_fake")
    = Ok ("other", "user_fake")
  ∧ _get_ks_table_name fake_model (OtherStatement "a.b.c") = Raise ValueError.
Proof.
  split_and!.
  - by apply (proj1 (ks_table_name_of_statement fake_model
                       (OtherStatement "user_fake"))).
  - by apply (ks_table_name_of_statement fake_model
                (OtherStatement "other.user_fake")).
  - by apply (proj2 (proj2 (ks_table_name_of_statement fake_model
                              (OtherStatement "a.b.c"))) "a" "b" "c").
Defined.

(** ** The executors and the registry *)

Section executors.

Lemma on_table_entries {A} ks tbl (m : M Table A) st :
  module_entries (on_table ks tbl m st).2 = module_entries st.
Proof.
  unfold on_table. destruct (get_keyspace ks st) as [k|]; [|done].
  destruct (get_table tbl k) as [t|]; [|done]. by destruct (m t).
Qed.

Lemma on_table_frame {A} ks tbl (m : M Table A) ks' tbl' st :
  (ks', tbl') ≠ (ks, tbl) →
  lookup_table ks' tbl' (on_table ks tbl m st).2 = lookup_table ks' tbl' st.
Proof.
  intros Hne. unfold on_table, get_keyspace, get_table, getitem.
  destruct (module_keyspaces st !! ks) as [k|] eqn:Hk; [|done].
  destruct (_tables k !! tbl) as [t|] eqn:Ht; [|done].
  destruct (m t) as [r t']. unfold lookup_table. simpl.
  destruct (decide (ks' = ks)) as [->|Hks].
  - rewrite lookup_insert_eq, Hk. simpl.
    rewrite lookup_insert_ne; [done|]. intros ->. by apply Hne.
  - by rewrite lookup_insert_ne.
Qed.

(** What both executors keep: any property of the registry that a table
    method run on the named table keeps, and that rewriting a row of the
    module-level [_entries] keeps. *)
Lemma executors_preserve (P : Registry → Prop) model b stmt st :
  (∀ names A (m : M Table A) s,
     _get_ks_table_name model stmt = Ok names →
     P s → P (on_table names.1 names.2 m s).2) →
  (∀ tbl idx f s, P s → P (null_field tbl idx f s).2) →
  P st →
  P (ModelQuerySet_execute model b stmt st).2
  ∧ P (DMLQuery_execute model b stmt st).2.
Proof.
  intros Hon Hnull Hst.
  assert (Hon' : ∀ names, _get_ks_table_name model stmt = Ok names →
                 ∀ A (m : M Table A) s, P s → P (on_table names.1 names.2 m s).2)
    by (intros; by apply Hon).
  clear Hon. split.
  - unfold ModelQuerySet_execute. unfold bind at 1. unfold lift at 1.
    destruct (_get_ks_table_name model stmt) as [names|e] eqn:Hn; [|done].
    specialize (Hon' names eq_refl).
    unfold bind at 1.
    destruct (get_keyspace names.1 st) as [k|]; [|done].
    unfold bind at 1. unfold lift at 1.
    destruct (get_table names.2 k) as [t|]; [|done].
    destruct b; [done|].
    destruct stmt as [tb wc fs lim|tb asg ine|tb wc asg ie|tb wc fs ie|tb];
      try done.
    + unfold bind, ret, lift.
      pose proof (Hon' _ (λ t0, (Table_find (clauses_to_dict wc) lim fs t0, t0))
                    st Hst) as H.
      destruct (on_table _ _ _ st) as [[[|row rows]|e] s']; simpl in *;
        try done.
      match goal with
      | |- P (match ?x with Ok _ => _ | Raise _ => _ end).2 => by destruct x
      end.
    + unfold bind, ret.
      pose proof (Hon' _ (Table_update (clauses_to_dict wc)
                            (assignments_to_list asg) ie) st Hst) as H.
      by destruct (on_table _ _ _ st) as [[[]|e] s'].
    + unfold bind, ret.
      pose proof (Hon' _ (Table_delete (clauses_to_dict wc) ie) st Hst) as H.
      by destruct (on_table _ _ _ st) as [[[]|e] s'].
  - unfold DMLQuery_execute. unfold bind at 1. unfold lift at 1.
    destruct (_get_ks_table_name model stmt) as [names|e] eqn:Hn; [|done].
    specialize (Hon' names eq_refl).
    unfold bind at 1.
    destruct (get_keyspace names.1 st) as [k|]; [|done].
    unfold bind at 1. unfold lift at 1.
    destruct (get_table names.2 k) as [t|]; [|done].
    destruct b; [done|].
    apply bind_preserves; [|done|done].
    intros s Hs.
    destruct stmt as [tb wc fs lim|tb asg ine|tb wc asg ie|tb wc fs ie|tb];
      try done.
    + by apply Hon'.
    + by apply Hon'.
    + unfold bind, get_state. destruct fs as [|f fs]; [by apply Hon'|].
      apply for_each_preserves; [|done]. intros idx s0 Hs0.
      apply for_each_preserves; [|done]. intros c s1 Hs1. by apply Hnull.
Qed.

Lemma null_field_empty tbl idx f st :
  module_entries st = ∅ → null_field tbl idx f st = (Ok tt, st).
Proof. intros He. unfold null_field. by rewrite He, lookup_empty. Qed.

End executors.

(** X20. Nothing fills the module-level [_entries]: when it is empty,
    as it is when the module is imported, it is empty after either
    executor has run any statement, after [create_keyspace] and after
    [flush]. *)
Theorem module_entries_stays_empty
    (model : Model) (_batch : bool) (stmt : statement) (name : string)
    (st : Registry) :
  module_entries st = ∅ →
  module_entries (ModelQuerySet_execute model _batch stmt st).2 = ∅
  ∧ module_entries (DMLQuery_execute model _batch stmt st).2 = ∅
  ∧ module_entries (create_keyspace name st) = ∅
  ∧ module_entries (flush st) = ∅.
Proof.
  intros He.
  destruct (executors_preserve (λ s, module_entries s = ∅) model _batch stmt st)
    as [Hq Hd]; [| |done|by split_and!].
  - intros names A m s _ Hs. by rewrite on_table_entries.
  - intros tbl idx f s Hs. by rewrite null_field_empty.
Qed.

Lemma module_entries_stays_empty_witness :
  module_entries
    (ModelQuerySet_execute fake_model false select_names Registry_init).2 = ∅
  ∧ module_entries
      (DMLQuery_execute fake_model false select_names Registry_init).2 = ∅
  ∧ module_entries (create_keyspace "fake" Registry_init) = ∅
  ∧ module_entries (flush Registry_init) = ∅.
Proof. by apply module_entries_stays_empty. Defined.

(** X21. A delete statement with field targets changes nothing at all.
    With the module-level [_entries] empty and the statement's table
    in the registry, [DMLQuery._execute] returns the empty list and
    leaves the registry, every table and row of it, as it was. *)
Theorem delete_fields_changes_nothing
    (model : Model) (tbl : string) (where_clauses : list clause)
    (f : clause) (fields : list clause) (if_exists : bool)
    (st : Registry) (names : string * string) (t : Table) :
  module_entries st = ∅ →
  _get_ks_table_name model
    (DeleteStatement tbl where_clauses (f :: fields) if_exists) = Ok names →
  lookup_table names.1 names.2 st = Some t →
  DMLQuery_execute model false
    (DeleteStatement tbl where_clauses (f :: fields) if_exists) st
  = (Ok (RRows []), st).
Proof.
  intros He Hn Ht. unfold lookup_table in Ht.
  destruct (module_keyspaces st !! names.1) as [k|] eqn:Hk; [|done].
  simpl in Ht.
  unfold DMLQuery_execute. unfold bind at 1. unfold lift at 1. rewrite Hn.
  unfold bind at 1. unfold get_keyspace, getitem. rewrite Hk.
  unfold bind at 1. unfold lift at 1. unfold get_table, getitem. rewrite Ht.
  unfold bind, get_state, lookup_items. rewrite He, lookup_empty. done.
Qed.

Lemma delete_fields_changes_nothing_witness :
  DMLQuery_execute fake_model false
    (DeleteStatement "user_fake"
       [mkClause "username" (VStr "user1") None]
       [mkClause "created_at" VNone None] false) one_user
  = (Ok (RRows []), one_user).
Proof.
  apply (delete_fields_changes_nothing _ _ _ _ _ _ _ ("fake", "user_fake")
           (default user_table (lookup_table "fake" "user_fake" one_user)));
    vm_compute; reflexivity.
Defined.

(** X22. Both executors look the keyspace and the table up before
    anything else, in batch mode too: when the registry has no such
    keyspace, or the keyspace no such table, they raise [KeyError] and
    the registry is as it was. *)
Theorem unknown_table_raises_key_error
    (model : Model) (_batch : bool) (stmt : statement) (st : Registry)
    (names : string * string) :
  _get_ks_table_name model stmt = Ok names →
  lookup_table names.1 names.2 st = None →
  ModelQuerySet_execute model _batch stmt st = (Raise KeyError, st)
  ∧ DMLQuery_execute model _batch stmt st = (Raise KeyError, st).
Proof.
  intros Hn Ht. unfold lookup_table in Ht.
  split; [unfold ModelQuerySet_execute|unfold DMLQuery_execute];
    unfold bind at 1; unfold lift at 1; rewrite Hn;
    unfold bind at 1; unfold get_keyspace, getitem;
    (destruct (module_keyspaces st !! names.1) as [k|] eqn:Hk; [|done]);
    simpl in Ht; unfold bind at 1; unfold lift at 1;
    unfold get_table, getitem; by rewrite Ht.
Qed.

Lemma unknown_table_raises_key_error_witness :
  ModelQuerySet_execute fake_model true select_names Registry_init
    = (Raise KeyError, Registry_init)
  ∧ DMLQuery_execute fake_model true select_names Registry_init
    = (Raise KeyError, Registry_init).
Proof.
  apply (unknown_table_raises_key_error _ _ _ _ ("fake", "user_fake"));
    vm_compute; reflexivity.
Defined.

(** X23. In batch mode nothing is executed: once the table is found,
    either executor hands the statement to the batch and leaves the
    registry as it was. *)
Theorem batch_mode_defers
    (model : Model) (stmt : statement) (st : Registry)
    (names : string * string) (t : Table) :
  _get_ks_table_name model stmt = Ok names →
  lookup_table names.1 names.2 st = Some t →
  ModelQuerySet_execute model true stmt st = (Ok RBatched, st)
  ∧ DMLQuery_execute model true stmt st = (Ok RBatched, st).
Proof.
  intros Hn Ht. unfold lookup_table in Ht.
  destruct (module_keyspaces st !! names.1) as [k|] eqn:Hk; [|done].
  simpl in Ht.
  split; [unfold ModelQuerySet_execute|unfold DMLQuery_execute];
    unfold bind at 1; unfold lift at 1; rewrite Hn;
    unfold bind at 1; unfold get_keyspace, getitem; rewrite Hk;
    unfold bind at 1; unfold lift at 1;
    unfold get_table, getitem; by rewrite Ht.
Qed.

Lemma batch_mode_defers_witness :
  ModelQuerySet_execute fake_model true insert_user1 synced
    = (Ok RBatched, synced)
  ∧ DMLQuery_execute fake_model true insert_user1 synced
    = (Ok RBatched, synced).
Proof.
  apply (batch_mode_defers _ _ _ ("fake", "user_fake") user_table);
    vm_compute; reflexivity.
Defined.

(** X24. [count] is cached.  Once a call of [count] has returned [n],
    every later call on that queryset returns [n] without reading the
    registry, whatever its tables hold by then. *)
Theorem count_is_cached
    (model : Model) (_batch : bool) (query : statement)
    (s s' : Registry * option nat) (n : nat) :
  ModelQuerySet_count model _batch query s = (Ok n, s') →
  ∀ st query',
    ModelQuerySet_count model _batch query' (st, s'.2) = (Ok n, (st, s'.2)).
Proof.
  unfold ModelQuerySet_count. intros Hc st query'.
  destruct _batch; [done|]. simpl.
  destruct s.2 as [n0|] eqn:Hs.
  - simplify_eq. by rewrite Hs.
  - destruct (ModelQuerySet_execute model false query s.1)
      as [[[|rows|]|e] st']; by simplify_eq.
Qed.

Lemma count_is_cached_witness :
  ModelQuerySet_count fake_model false select_created_at
    (Registry_init,
     (ModelQuerySet_count fake_model false select_names (one_user, None)).2.2)
  = (Ok 1%nat,
     (Registry_init,
      (ModelQuerySet_count fake_model false select_names
         (one_user, None)).2.2)).
Proof.
  apply (count_is_cached fake_model false select_names (one_user, None)).
  vm_compute. reflexivity.
Defined.

(** X25. A statement touches one table at most.  Whatever the
    statement and the batch flag, either executor leaves every table but
    the one the statement names as it was, found under its keyspace and
    name as before. *)
Theorem executors_touch_only_named_table
    (model : Model) (_batch : bool) (stmt : statement) (st : Registry)
    (names : string * string) (ks' tbl' : string) :
  _get_ks_table_name model stmt = Ok names →
  (ks', tbl') ≠ names →
  lookup_table ks' tbl' (ModelQuerySet_execute model _batch stmt st).2
    = lookup_table ks' tbl' st
  ∧ lookup_table ks' tbl' (DMLQuery_execute model _batch stmt st).2
    = lookup_table ks' tbl' st.
Proof.
  intros Hn Hne.
  apply (executors_preserve
           (λ s, lookup_table ks' tbl' s = lookup_table ks' tbl' st));
    [| |done].
  - intros names' A m s Hn' Hs. rewrite <- Hs. apply on_table_frame.
    rewrite Hn in Hn'. simplify_eq. by destruct names'.
  - intros tbl idx f s Hs. unfold lookup_table.
    by rewrite null_field_keeps_keyspaces.
Qed.

Lemma executors_touch_only_named_table_witness :
  lookup_table "fake" "user_fake"
    (ModelQuerySet_execute fake_model false (OtherStatement "fake.logs")
       one_user).2
    = lookup_table "fake" "user_fake" one_user
  ∧ lookup_table "fake" "user_fake"
      (DMLQuery_execute fake_model false (OtherStatement "fake.logs")
         one_user).2
    = lookup_table "fake" "user_fake" one_user.
Proof.
  apply (executors_touch_only_named_table _ _ _ _ ("fake", "logs")).
  - vm_compute. reflexivity.
  - done.
Defined.

(** ** The read-path normalizers and [drop_keyspace] *)

Section normalizers.

Lemma res_mapM_ok {A B} (f : A → res B) (g : A → B) (l : list A) :
  (∀ x, x ∈ l → f x = Ok (g x)) → res_mapM f l = Ok (g <$> l).
Proof.
  induction l as [|a l IH]; intros Hf; simpl; [done|].
  rewrite Hf by left. simpl. rewrite IH; [done|].
  intros x Hx. apply Hf. by right.
Qed.

Lemma res_mapM_raises {A B} (f : A → res B) (l : list A) x e :
  x ∈ l → f x = Raise e → ∃ e', res_mapM f l = Raise e'.
Proof.
  intros Hx Hfx. induction l as [|a l IH]; [by apply elem_of_nil in Hx|].
  simpl. apply elem_of_cons in Hx as [<-|Hx].
  - rewrite Hfx. by eexists.
  - destruct (f a); simpl; [|by eexists].
    destruct (IH Hx) as [e' ->]. by eexists.
Qed.

End normalizers.

(** X26. [normalize] leaves alone the rows it has no formatter for: a
    row whose fields all belong to columns that are no [DateTime], no
    [Date] and no collection, or to no column of the model, comes back
    with every value as stored. *)
Theorem normalize_plain_row (model : Model) (d : gmap string value) :
  (∀ k v, d !! k = Some v → get_formatter_from_model model k = None) →
  normalize model d = Ok (ERaw <$> d).
Proof.
  intros Hplain. unfold normalize.
  rewrite (res_mapM_ok _ (prod_map id ERaw)).
  - simpl. f_equal. by rewrite list_to_map_fmap, list_to_map_to_list.
  - intros [k v] Hkv%elem_of_map_to_list. simpl.
    unfold normalize_cell. by rewrite (Hplain k v Hkv).
Qed.

Lemma normalize_plain_row_witness :
  normalize fake_model {[ "username" := VStr "user1"; "company" := VInt 390 ]}
  = Ok (ERaw <$> ({[ "username" := VStr "user1"; "company" := VInt 390 ]}
                    : gmap string value)).
Proof.
  apply normalize_plain_row. intros k v Hkv.
  destruct (decide (k = "username")) as [->|Hu]; [by vm_compute|].
  destruct (decide (k = "company")) as [->|Hc]; [by vm_compute|].
  rewrite lookup_insert_ne in Hkv by done.
  by rewrite lookup_singleton_ne in Hkv.
Defined.

(** X27. A collection read under a name the model has no column for.
    [normalize] finds the formatter through the alias map but hands it
    the column found under the field name itself.  So when the alias
    map sends the field [k] to a [List], [Set] or [Map] column and the
    model has no column named [k], a non-empty value under [k] makes
    the cell raise [AttributeError], and [normalize] raises on every row
    that holds it. *)
Theorem normalize_aliased_collection_raises
    (model : Model) (k n : string) (col : Column) (v : value)
    (d : gmap string value) :
  model_db_map model !! k = Some n → n ≠ "" →
  model_columns model !! n = Some col →
  col_type col ∈ [KList; KSet; KMap] →
  model_columns model !! k = None →
  falsy v = false →
  d !! k = Some v →
  normalize_cell model k v = Raise AttributeError
  ∧ ∃ e, normalize model d = Raise e.
Proof.
  intros Hk Hn Hcol Hty Hnone Hv Hd.
  assert (Hcell : normalize_cell model k v = Raise AttributeError).
  { unfold normalize_cell, get_formatter_from_model.
    rewrite Hk, decide_False, Hcol, Hnone by done. simpl.
    apply elem_of_cons in Hty as [->|Hty];
      [|apply elem_of_cons in Hty as [->|Hty];
        [|apply list_elem_of_singleton in Hty as ->]]; simpl;
      unfold process_list, process_set, process_map; by rewrite Hv. }
  split; [done|]. unfold normalize.
  destruct (res_mapM_raises
              (λ kv : string * value,
                 try! e := normalize_cell model kv.1 kv.2 in Ok (kv.1, e))
              (map_to_list d) (k, v) AttributeError) as [e' He'].
  - by apply elem_of_map_to_list.
  - simpl. by rewrite Hcell.
  - rewrite He'. by eexists.
Qed.

Lemma normalize_aliased_collection_raises_witness :
  normalize_cell
    (mkModel "fake" {[ "tags" := mkColumn "tag_list" false KList [KText] ]}
       {[ "tag_list" := "tags" ]})
    "tag_list" (VList [AStr "x"])
  = Raise AttributeError
  ∧ ∃ e, normalize
           (mkModel "fake"
              {[ "tags" := mkColumn "tag_list" false KList [KText] ]}
              {[ "tag_list" := "tags" ]})
           {[ "tag_list" := VList [AStr "x"] ]}
         = Raise e.
Proof.
  apply (normalize_aliased_collection_raises _ "tag_list" "tags"
           (mkColumn "tag_list" false KList [KText]));
    try (vm_compute; reflexivity); try done.
  left.
Defined.

(** X28. [process_list]: an empty list comes back as it is, whatever
    the column; a non-empty list of a column whose element class has
    no formatter comes back element by element, each as stored. *)
Theorem process_list_plain_elements
    (l : list atom) (c : option Column) (col : Column)
    (value_type : klass) (rest : list klass) :
  types col = value_type :: rest →
  get_formatter (Some value_type) = None →
  process_list (VList []) c = Ok (ERaw (VList []))
  ∧ (l ≠ [] →
     process_list (VList l) (Some col)
     = Ok (EList ((λ a, ERaw (VAtom a)) <$> l))).
Proof.
  intros Hty Hfmt. split; [done|]. intros Hl. unfold process_list. simpl.
  rewrite bool_decide_eq_false_2 by done. rewrite Hty.
  rewrite (res_mapM_ok _ (λ a, ERaw (VAtom a))); [done|].
  intros a _. unfold normalize_value. by rewrite Hfmt.
Qed.

Lemma process_list_plain_elements_witness :
  process_list (VList []) None = Ok (ERaw (VList []))
  ∧ (([AStr "python"; AStr "docker"] : list atom) ≠ [] →
     process_list (VList [AStr "python"; AStr "docker"])
       (Some (mkColumn "skills" false KList [KText]))
     = Ok (EList ((λ a, ERaw (VAtom a)) <$> [AStr "python"; AStr "docker"]))).
Proof.
  apply (process_list_plain_elements _ _ _ KText []); reflexivity.
Defined.

(** X29. [drop_keyspace] takes the aliases out of the set kept under
    the name: when the set holds every alias and no alias is listed
    twice, it returns and the set is the old one without them. *)
Theorem drop_keyspace_removes_aliases
    (name : string) (aliases : list string)
    (ks : gmap string (gset string)) (s : gset string) :
  ks !! name = Some s →
  NoDup aliases →
  (∀ a, a ∈ aliases → a ∈ s) →
  drop_keyspace name aliases ks
  = (Ok tt, <[name := s ∖ list_to_set aliases]> ks).
Proof.
  unfold drop_keyspace. revert ks s.
  induction aliases as [|a aliases IH]; intros ks s Hks Hnd Hin.
  - simpl. unfold ret. f_equal.
    rewrite difference_empty_L. by rewrite insert_id.
  - apply NoDup_cons in Hnd as [Ha Hnd].
    rewrite for_each_cons, Hks. simpl.
    rewrite decide_True by (apply Hin; left).
    rewrite (IH _ (s ∖ {[a]})).
    + f_equal. rewrite insert_insert_eq. f_equal. simpl.
      by rewrite difference_difference_l_L.
    + by rewrite lookup_insert_eq.
    + done.
    + intros b Hb. apply elem_of_difference. split; [apply Hin; by right|].
      intros ->%elem_of_singleton. done.
Qed.

Lemma drop_keyspace_removes_aliases_witness :
  drop_keyspace "fake" ["default"]
    {[ "fake" := ({[ "default"; "other" ]} : gset string) ]}
  = (Ok tt,
     <["fake" := ({[ "default"; "other" ]} : gset string)
                 ∖ list_to_set ["default"]]>
       {[ "fake" := ({[ "default"; "other" ]} : gset string) ]}).
Proof.
  apply drop_keyspace_removes_aliases.
  - by simplify_map_eq.
  - apply NoDup_singleton.
  - intros a ->%list_elem_of_singleton.
    apply elem_of_union. left. by apply elem_of_singleton.
Defined.

(** X30. Nothing fills the [_keyspaces] of [base/creation.py], so its
    sets are empty.  On such a store [drop_keyspace] with at least one
    alias raises [KeyError], and the lookup has left an empty set under
    the name; the sets are still all empty. *)
Theorem drop_keyspace_raises_on_empty_sets
    (name alias : string) (rest : list string)
    (ks : gmap string (gset string)) :
  (∀ n s, ks !! n = Some s → s = ∅) →
  drop_keyspace name (alias :: rest) ks
    = (Raise KeyError, <[name := ∅]> ks)
  ∧ ∀ n s, (drop_keyspace name (alias :: rest) ks).2 !! n = Some s → s = ∅.
Proof.
  intros Hempty.
  assert (Hs : default ∅ (ks !! name) = (∅ : gset string)).
  { destruct (ks !! name) as [s|] eqn:Hks; [|done]. simpl.
    by apply (Hempty name). }
  assert (Hd : drop_keyspace name (alias :: rest) ks
               = (Raise KeyError, <[name := ∅]> ks)).
  { unfold drop_keyspace. rewrite for_each_cons, Hs.
    by rewrite decide_False by apply not_elem_of_empty. }
  split; [done|]. rewrite Hd. simpl. intros n s.
  destruct (decide (n = name)) as [->|Hne].
  - rewrite lookup_insert_eq. by intros [= <-].
  - rewrite lookup_insert_ne by done. apply Hempty.
Qed.

Lemma drop_keyspace_raises_on_empty_sets_witness :
  drop_keyspace "fake" ["default"] ∅ = (Raise KeyError, <["fake" := ∅]> ∅)
  ∧ ∀ n s, (drop_keyspace "fake" ["default"] ∅).2 !! n = Some s → s = ∅.
Proof.
  apply drop_keyspace_raises_on_empty_sets.
  intros n s Hn. by rewrite lookup_empty in Hn.
Defined.
